(** * vscode-q: the activation entry point [src/client/client.ts]

    A shallow embedding of the command handlers, the document formatter,
    the on-enter rules and the language-client wiring registered by
    [activate], together with the properties the specification states about
    them and further properties read off the code.

    Conventions.
    - A JavaScript string is a [string]; each [ascii] stands for one code
      unit (code units above 255 are outside the model).
    - [undefined] for a value of type [T | undefined] is [None].
    - Calls on collaborators (the window, the language client, the terminal,
      the connection manager) are recorded, in program order, in a trace. *)

From Stdlib Require Import Ascii String.
From stdpp Require Import base option strings list gmap pretty sorting.

Open Scope string_scope.
Open Scope list_scope.

(** ** JavaScript values and completions *)

(** Values of type [any]: configuration values, notification payloads and
    untyped command arguments. *)
#[local] Unset Elimination Schemes.
Inductive JsValue : Type :=
| JUndefined
| JNull
| JBool (b : bool)
| JNumber (n : Z)
| JString (s : string)
| JArray (items : list JsValue)
| JObject (fields : list (string * JsValue)).
#[local] Set Elimination Schemes.

(** The outcome of evaluating a statement or a call: it returns normally or
    throws. *)
Inductive Completion (A : Type) : Type :=
| Normal (a : A)
| Throw (e : JsValue).
Arguments Normal {A} a.
Arguments Throw {A} e.

(** [if (v)] on a value of type [string | undefined]: only a non-empty string
    is truthy. *)
Definition truthy (v : option string) : bool :=
  match v with
  | Some (String _ _) => true
  | _ => false
  end.

(** ** The editor's text model (the part of the [vscode] API the file uses) *)

Record Position : Type := { line : nat; character : nat }.

Record Range : Type := { start : Position; end_ : Position }.

Record TextEdit : Type := { edit_range : Range; newText : string }.

(** [TextEdit.insert(position, newText)]: an edit with an empty range. *)
Definition TextEdit_insert (position : Position) (newText : string) : TextEdit :=
  {| edit_range := {| start := position; end_ := position |}; newText := newText |}.

Record TextLine : Type := {
  lineNumber : nat;
  text : string;
  range : Range;
  isEmptyOrWhitespace : bool
}.

Inductive EndOfLine : Type := LF | CRLF.

Record TextDocument : Type := {
  fileName : string;
  eol : EndOfLine;
  lines : list string
}.

Definition CR_char : ascii := "013"%char.
Definition LF_char : ascii := "010"%char.

(** The white space class [\s], on the code units a [string] can hold. *)
Definition is_whitespace (c : ascii) : bool :=
  bool_decide (c ∈ ["009"; "010"; "011"; "012"; "013"; " "; "160"]%char).

Fixpoint string_forallb (p : ascii → bool) (s : string) : bool :=
  match s with
  | EmptyString => true
  | String c rest => p c && string_forallb p rest
  end.

Definition lineCount (document : TextDocument) : nat := length (lines document).

(** [document.lineAt(i)] throws on a line number outside the document. *)
Definition lineAt (document : TextDocument) (i : nat) : Completion TextLine :=
  match lines document !! i with
  | Some t =>
      Normal {| lineNumber := i;
                text := t;
                range := {| start := {| line := i; character := 0 |};
                            end_ := {| line := i; character := String.length t |} |};
                isEmptyOrWhitespace := string_forallb is_whitespace t |}
  | None => Throw (JString "Illegal value for `line`")
  end.

(** ** The document formatter (client.ts, lines 63-78) *)

(** [line.text.match('^[)\\]}]')] is truthy: the pattern is anchored at the
    start of the string and its class holds the three closing brackets. *)
Definition matches_closing_bracket (t : string) : bool :=
  match t with
  | String c _ => bool_decide (c ∈ [")"; "]"; "}"]%char)
  | EmptyString => false
  end.

(** The [for] loop: [remaining] counts the iterations left
    ([document.lineCount - i]), [textEdit] is the array built so far. *)
Fixpoint format_lines (document : TextDocument) (remaining i : nat)
    (textEdit : list TextEdit) : Completion (list TextEdit) :=
  match remaining with
  | 0 => Normal textEdit
  | S remaining' =>
      match lineAt document i with
      | Throw e => Throw e
      | Normal l =>
          if isEmptyOrWhitespace l then
            format_lines document remaining' (S i) textEdit
          else if matches_closing_bracket (text l) then
            format_lines document remaining' (S i)
              (textEdit ++ [TextEdit_insert (start (range l)) " "])
          else
            format_lines document remaining' (S i) textEdit
      end
  end.

Definition provideDocumentFormattingEdits (document : TextDocument)
    : Completion (list TextEdit) :=
  format_lines document (lineCount document) 0 [].

(** The lines the specification singles out: non-empty, not white space
    only, and beginning with a closing bracket. *)
Definition closing_line (t : string) : Prop :=
  t ≠ "" ∧ string_forallb is_whitespace t = false ∧
  ∃ c rest, t = String c rest ∧ c ∈ [")"; "]"; "}"]%char.

Definition closing_lineb (t : string) : bool :=
  negb (string_forallb is_whitespace t) && matches_closing_bracket t.

(** The insertion of one space at the start of line [i]. *)
Definition indent_edit (i : nat) : TextEdit :=
  TextEdit_insert {| line := i; character := 0 |} " ".

(** The edits the specification describes, in line order. *)
Definition expected_edits (document : TextDocument) : list TextEdit :=
  indent_edit <$>
    filter (λ i, from_option closing_lineb false (lines document !! i))
           (seq 0 (lineCount document)).

(** ** Selections and [document.getText] *)

#[global] Instance Position_eq_dec : EqDecision Position.
Proof. solve_decision. Defined.

(** [a.isBefore(b)] *)
Definition isBefore (a b : Position) : bool :=
  bool_decide (line a < line b) ||
  (bool_decide (line a = line b) && bool_decide (character a < character b)).

(** A selection has an anchor and an active end; [start] is the earlier of
    the two and [end] the later. *)
Record Selection : Type := { anchor : Position; active : Position }.

Definition Selection_start (s : Selection) : Position :=
  if isBefore (active s) (anchor s) then active s else anchor s.

Definition Selection_end (s : Selection) : Position :=
  if isBefore (active s) (anchor s) then anchor s else active s.

Definition Selection_isEmpty (s : Selection) : Prop :=
  anchor s = active s.

(** [new Range(a, b)] orders its two ends. *)
Definition new_Range (a b : Position) : Range :=
  if isBefore b a then {| start := b; end_ := a |} else {| start := a; end_ := b |}.

Definition eol_string (e : EndOfLine) : string :=
  match e with
  | LF => String LF_char ""
  | CRLF => String CR_char (String LF_char "")
  end.

Fixpoint string_drop (n : nat) (s : string) : string :=
  match n, s with
  | S n', String _ rest => string_drop n' rest
  | _, _ => s
  end.

Fixpoint string_take (n : nat) (s : string) : string :=
  match n, s with
  | S n', String c rest => String c (string_take n' rest)
  | _, _ => ""
  end.

Definition line_text (document : TextDocument) (i : nat) : string :=
  default "" (lines document !! i).

(** [document.getText(range)]: nothing for an empty range, a piece of one
    line for a single-line range, and otherwise the tail of the first line,
    the lines in between and the head of the last line, joined by the
    document's end-of-line sequence. *)
Definition getText (document : TextDocument) (r : Range) : string :=
  let s := start r in
  let e := end_ r in
  if decide (s = e) then ""
  else if decide (line s = line e) then
    string_take (character e - character s)
      (string_drop (character s) (line_text document (line s)))
  else
    String.concat (eol_string (eol document))
      (string_drop (character s) (line_text document (line s))
       :: take (line e - line s - 1) (drop (S (line s)) (lines document))
       ++ [string_take (character e) (line_text document (line e))]).

Record TextEditor : Type := { document : TextDocument; selection : Selection }.

(** [query.replace(/(\r\n|\n|\r)/gm, '')]: at each position the alternatives
    are tried in order; a match is dropped and the scan resumes after it,
    any other code unit is copied. *)
Fixpoint replace_line_breaks (query : string) : string :=
  match query with
  | EmptyString => EmptyString
  | String c rest =>
      if bool_decide (c = CR_char) then
        match rest with
        | String c' rest' =>
            if bool_decide (c' = LF_char) then replace_line_breaks rest'
            else replace_line_breaks rest
        | EmptyString => replace_line_breaks rest
        end
      else if bool_decide (c = LF_char) then replace_line_breaks rest
      else String c (replace_line_breaks rest)
  end.

(** [s.replace(',', '-')] with a string pattern: only the first occurrence
    is replaced. *)
Fixpoint replace_first (from to : ascii) (s : string) : string :=
  match s with
  | EmptyString => EmptyString
  | String c rest =>
      if bool_decide (c = from) then String to rest
      else String c (replace_first from to rest)
  end.

Fixpoint string_filter (p : ascii → bool) (s : string) : string :=
  match s with
  | EmptyString => EmptyString
  | String c rest =>
      if p c then String c (string_filter p rest) else string_filter p rest
  end.

Definition is_line_break (c : ascii) : bool :=
  bool_decide (c = CR_char) || bool_decide (c = LF_char).

(** ** The connection manager, seen from the entry point

    [modules/q-conn-manager] is a collaborator of this file: the records
    below hold the members the handlers read, and the methods are taken as a
    parameter ([impl], in section [Handlers]). A method is called without
    [await]: it runs, changes the manager and returns or throws before the
    next statement of the handler. *)

Module QConn.
(** A server entry of the tree view, as far as this file reads it. *)
Record t : Type := { label : string; uniqLabel : string; tags : string }.
End QConn.

Module History.
(** A history tree item: the endpoint it ran on and the query text. *)
Record t : Type := { uniqLabel : string; query : string }.
End History.

(** Modelled from the spec: the three query modes of section 3
    ("queryMode ∈ {Console, Grid, Virtualization}"). *)
Inductive QueryMode : Type := Console | Grid | Virtualization.

(** Modelled from the spec: an instance of the class [QConnManager] of
    modules/q-conn-manager. [qCfg] and [activeConn] are the members this
    file reads; [limitQueryEnabled] is the flag of section 3 of the
    specification. *)
Record QConnManager : Type := {
  qCfg : list QConn.t;
  activeConn : option QConn.t;
  limitQueryEnabled : bool
}.

(** Modelled from the spec: the static members of the class [QConnManager]
    of modules/q-conn-manager: the singleton [QConnManager.current], which
    this file reads through [?.], and the [queryMode] of section 3 of the
    specification. *)
Record QConnManagerStatics : Type := {
  current : option QConnManager;
  queryMode : QueryMode
}.

(** The methods this file calls on the manager. *)
Inductive ManagerMethod : Type :=
| Connect (uniqLabel : JsValue) (query : option string)
| Sync (query : string)
| AddCfg (qConn : QConn.t)
| RemoveCfg (uniqLabel : string)
| ToggleLimitQuery
| AbortQuery
| ExportCfg
| ImportCfg
| SetQueryMode (mode : JsValue).

(** Input and output a manager method performs on its own (transport,
    files, status bar). *)
Record ManagerIO : Type := { channel : string; payload : JsValue }.

(** What a call of a manager method does: how it completes, the manager
    state it leaves and the I/O it performed. *)
Record MethodResult : Type := {
  completion : Completion ();
  after : QConnManagerStatics;
  performed : list ManagerIO
}.

Definition ManagerImpl : Type := ManagerMethod → QConnManagerStatics → MethodResult.

(** ** The world of the extension host and the trace of calls *)

Inductive Effect : Type :=
| ShowInformationMessage (message : string)
| ShowInputBox (prompt : string)
| ShowQuickPick (items : list string) (placeHolder : string)
| OpenExternal (uri : string)
| ConsoleLog (v : JsValue)
| SendNotification (method : string) (params : JsValue)
| SendToCurrentTerm (text : string)
| RunQFile (filepath : string)
| UpdateQueryModeStatus
| Collaborator (callee : string) (args : list JsValue)
| ManagerCall (m : ManagerMethod)
| ManagerEffect (io : ManagerIO).

Record World : Type := {
  configuration : gmap string JsValue;
  activeTextEditor : option TextEditor;
  QueryConsole_current : bool;
  manager : QConnManagerStatics;
  trace : list Effect
}.

Definition with_trace (w : World) (tr : list Effect) : World :=
  {| configuration := configuration w;
     activeTextEditor := activeTextEditor w;
     QueryConsole_current := QueryConsole_current w;
     manager := manager w;
     trace := tr |}.

Definition with_manager (w : World) (m : QConnManagerStatics) : World :=
  {| configuration := configuration w;
     activeTextEditor := activeTextEditor w;
     QueryConsole_current := QueryConsole_current w;
     manager := m;
     trace := trace w |}.

(** Computations of the handlers: they read and change the world and
    complete normally or by throwing. *)
Definition Eff (A : Type) : Type := World → Completion A * World.

#[global] Instance Eff_ret : MRet Eff := λ A a w, (Normal a, w).

#[global] Instance Eff_bind : MBind Eff := λ A B f c w,
  match c w with
  | (Normal a, w') => f a w'
  | (Throw e, w') => (Throw e, w')
  end.

Definition skip : Eff () := mret ().

Definition get_world : Eff World := λ w, (Normal w, w).

Definition log (e : Effect) : Eff () :=
  λ w, (Normal (), with_trace w (trace w ++ [e])).

Definition lift_completion {A} (c : Completion A) : Eff A := λ w, (c, w).

(** [workspace.getConfiguration(section).get(key)]; a setting that is not
    there reads as [undefined]. *)
Definition getConfiguration (section : option string) (w : World) (key : string) : JsValue :=
  let full := match section with
              | Some s => s +:+ "." +:+ key
              | None => key
              end in
  default JUndefined (configuration w !! full).

(** The event of [workspace.onDidChangeConfiguration]. *)
Record ConfigurationChangeEvent : Type := {
  affectsConfiguration : string → bool
}.

(** An event that changes the settings [keys]: a section is affected when a
    changed setting is the section itself or lies below it. *)
Definition below (section key : string) : bool :=
  bool_decide (key = section) || String.prefix (section +:+ ".") key.

Definition changed_settings (keys : list string) : ConfigurationChangeEvent :=
  {| affectsConfiguration := λ section, existsb (below section) keys |}.

(** An item of the explorer tree, as far as the preview command reads it. *)
Record TreeItem : Type := {
  contextValue : option string;
  item_label : option string;
  getBody : string
}.

(** The string a template literal substitutes for a value. *)
Fixpoint js_to_string (v : JsValue) : string :=
  match v with
  | JUndefined => "undefined"
  | JNull => "null"
  | JBool true => "true"
  | JBool false => "false"
  | JNumber n => pretty n
  | JString s => s
  | JArray items =>
      (fix join (xs : list JsValue) : string :=
         match xs with
         | [] => ""
         | x :: rest =>
             let piece := match x with
                          | JUndefined | JNull => ""
                          | _ => js_to_string x
                          end in
             match rest with
             | [] => piece
             | _ => piece +:+ "," +:+ join rest
             end
         end) items
  | JObject _ => "[object Object]"
  end.

Definition option_to_js (v : option string) : JsValue :=
  match v with
  | Some s => JString s
  | None => JUndefined
  end.

Definition QConn_to_js (c : QConn.t) : JsValue :=
  JObject [("label", JString (QConn.label c));
           ("uniqLabel", JString (QConn.uniqLabel c));
           ("tags", JString (QConn.tags c))].

(** The payload of the scope-change notification:
    [{ globsPattern: cfg.get('globsPattern'), ignorePattern: cfg.get('ignorePattern') }]
    with [cfg = workspace.getConfiguration('q-server.sourceFiles')]. *)
Definition sourceFiles_payload (w : World) : JsValue :=
  let cfg := getConfiguration (Some "q-server.sourceFiles") w in
  JObject [("globsPattern", cfg "globsPattern");
           ("ignorePattern", cfg "ignorePattern")].

(** [client.sendNotification(method, params)] *)
Definition sendNotification (method : string) (params : JsValue) : Eff () :=
  log (SendNotification method params).

Definition sendToCurrentTerm (text : string) : Eff () :=
  log (SendToCurrentTerm text).

(** The notifications a trace holds, in order. *)
Definition notifications (tr : list Effect) : list (string * JsValue) :=
  omap (λ e, match e with
             | SendNotification method params => Some (method, params)
             | _ => None
             end) tr.

(** The texts a trace sends to the terminal, in order. *)
Definition terminal_texts (tr : list Effect) : list string :=
  omap (λ e, match e with
             | SendToCurrentTerm t => Some t
             | _ => None
             end) tr.

(** The manager methods a trace enters, in order. *)
Definition manager_calls (tr : list Effect) : list ManagerMethod :=
  omap (λ e, match e with
             | ManagerCall m => Some m
             | _ => None
             end) tr.

(** ** The handlers registered by [activate] *)

Section Handlers.

(** The methods of [modules/q-conn-manager]. *)
Variable impl : ManagerImpl.

(** [QConnManager.m(...)]: the call is entered, the method runs. *)
Definition call_manager (m : ManagerMethod) : Eff () := λ w,
  let r := impl m (manager w) in
  (completion r,
   with_manager
     (with_trace w (trace w ++ ManagerCall m :: (ManagerEffect <$> performed r)))
     (after r)).

(** [QConnManager.current?.m(...)]: nothing is evaluated without a
    singleton. *)
Definition call_current (m : ManagerMethod) : Eff () := λ w,
  match current (manager w) with
  | Some _ => call_manager m w
  | None => (Normal (), w)
  end.

(** [QConnManager.current?.activeConn?.uniqLabel] *)
Definition active_uniqLabel (w : World) : option string :=
  c ← current (manager w); conn ← activeConn c; Some (QConn.uniqLabel conn).

(** Lines 100-101: the query mode read from the settings is handed to
    [QConnManager.setQueryMode]; the cast [as string] leaves the value as it
    is. *)
Definition startup_setQueryMode : Eff () :=
  w ← get_world;
  call_manager (SetQueryMode (getConfiguration None w "q-client.queryMode")).

(** 'q-client.refreshEntry' *)
Definition refreshEntry : Eff () := log (Collaborator "qServers.refresh" []).

(** 'q-client.addEntry' *)
Definition addEntry : Eff () := log (Collaborator "AddServer.createOrShow" []).

(** 'q-client.editEntry' *)
Definition editEntry (qConn : QConn.t) : Eff () :=
  log (Collaborator "AddServer.createOrShow" []);;
  log (Collaborator "AddServer.update" [QConn_to_js qConn]).

(** 'q-client.deleteEntry' (lines 121-132); [value] is what the input box
    resolves to, [None] when the prompt is dismissed. *)
Definition deleteEntry (qConn : QConn.t) (value : option string) : Eff () :=
  log (ShowInputBox ("Confirm to Remove Server '"
                     +:+ replace_first "," "-" (QConn.uniqLabel qConn)
                     +:+ "' (Y/n)"));;
  if bool_decide (value = Some "Y") then
    call_current (RemoveCfg (QConn.uniqLabel qConn))
  else skip.

Definition reactions_items : list string :=
  ["1 - Raising an Issue"; "2 - Writing a Review"; "3 - Creating a Pull Request";
   "4 - Buying Me a Beer"; "5 - Q & A"].

(** 'q-client.reactions'; [option] is what the quick pick resolves to. *)
Definition reactions (option : option string) : Eff () :=
  log (ShowQuickPick reactions_items "Contribute to vscode-q by");;
  match option with
  | Some (String c _) =>
      if bool_decide (c = "1"%char) then
        log (OpenExternal "https://github.com/jshinonome/vscode-q/issues")
      else if bool_decide (c = "2"%char) then
        log (OpenExternal "https://marketplace.visualstudio.com/items?itemName=jshinonome.vscode-q&ssr=false#review-details")
      else if bool_decide (c = "3"%char) then
        log (OpenExternal "https://github.com/jshinonome/vscode-q/blob/master/CONTRIBUTING.md")
      else if bool_decide (c = "4"%char) then
        log (OpenExternal "https://www.buymeacoffee.com/jshinonome")
      else if bool_decide (c = "5"%char) then
        log (OpenExternal "https://github.com/jshinonome/vscode-q/discussions")
      else skip
  | _ => skip
  end.

(** 'q-client.connect' *)
Definition connect (uniqLabel : JsValue) : Eff () :=
  call_current (Connect uniqLabel None).

(** 'q-client.connectEntry'; the picked label is passed on to
    'q-client.connect'. *)
Definition connectEntry (option : option string) : Eff () :=
  w ← get_world;
  log (ShowQuickPick
         (default [] ((λ c, QConn.uniqLabel <$> qCfg c) <$> current (manager w)))
         "Contribute to vscode-q by");;
  match option with
  | Some s => if truthy option then connect (JString s) else skip
  | None => skip
  end.

(** 'q-client.tagEntry': [qConn.tags] becomes the answer, or the empty
    string when there is none. *)
Definition tagEntry (qConn : QConn.t) (answer : option string) : Eff () :=
  log (ShowInputBox ("Tags for '" +:+ QConn.label qConn
                     +:+ "' separate by ',' (e.g. 'dev,quant,tca')"));;
  call_current (AddCfg {| QConn.label := QConn.label qConn;
                          QConn.uniqLabel := QConn.uniqLabel qConn;
                          QConn.tags := default "" answer |}).

(** 'q-client.switchMode' (lines 184-194); [mode] is what the quick pick
    resolves to. *)
Definition switchMode (mode : option string) : Eff () :=
  log (ShowQuickPick ["Console"; "Grid"; "Virtualization"]
         "Please choose a query mode from the list below");;
  match mode with
  | Some m =>
      if truthy mode then
        log (ShowInformationMessage ("Switch to Query " +:+ m +:+ " Mode"));;
        call_manager (SetQueryMode (JString m));;
        log UpdateQueryModeStatus
      else skip
  | None => skip
  end.

(** 'q-client.toggleLimitQuery' (lines 196-200) *)
Definition toggleLimitQuery_command : Eff () := call_current ToggleLimitQuery.

(** 'q-client.abortQuery' *)
Definition abortQuery : Eff () := call_current AbortQuery.

(** 'q-client.exportServers' *)
Definition exportServers : Eff () := call_current ExportCfg.

(** 'q-client.importServers' *)
Definition importServers : Eff () := call_current ImportCfg.

(** 'q-explorer.refreshEntry' *)
Definition explorer_refreshEntry : Eff () := log (Collaborator "qRoot.refresh" []).

(** 'q-explorer.preview'; [previewQueryLimit] is the setting read once at
    activation. *)
Definition preview (previewQueryLimit : JsValue) (item : TreeItem) : Eff () :=
  if bool_decide (contextValue item = Some "qtable") then
    call_current
      (Sync ("{[t;l]$[t in .Q.pt;select from t where date=last date, i<l;select from t where i<l]}[`"
             +:+ js_to_string (option_to_js (item_label item)) +:+ ";"
             +:+ js_to_string previewQueryLimit +:+ "]"))
  else if bool_decide (contextValue item = Some "qfunction") then
    w ← get_world;
    if QueryConsole_current w then
      log (Collaborator "QueryConsole.append"
             [JString (getBody item); JNumber 0; JString "cached"])
    else skip
  else
    match item_label item with
    | Some l => if truthy (item_label item) then call_current (Sync l) else skip
    | None => skip
    end.

(** 'q-explorer.click' *)
Definition click (label : JsValue) : Eff () := log (ConsoleLog label).

(** 'q-history.rerun' (lines 244-251) *)
Definition rerun (history : History.t) : Eff () :=
  w ← get_world;
  if bool_decide (active_uniqLabel w = Some (History.uniqLabel history)) then
    call_current (Sync (History.query history))
  else
    call_current (Connect (JString (History.uniqLabel history))
                          (Some (History.query history))).

(** The text of the line the cursor is on:
    [document.lineAt(selection.active.line).text]. *)
Definition current_line_text (editor : TextEditor) : Eff string :=
  l ← lift_completion (lineAt (document editor) (line (active (selection editor))));
  mret (text l).

(** [window.activeTextEditor?.document.getText(new Range(selection.start,
    selection.end))]: [undefined] without an active editor. *)
Definition selected_text (w : World) : option string :=
  editor ← activeTextEditor w;
  Some (getText (document editor)
          (new_Range (Selection_start (selection editor))
                     (Selection_end (selection editor)))).

(** 'q-client.queryCurrentLine' *)
Definition queryCurrentLine : Eff () :=
  w ← get_world;
  match activeTextEditor w with
  | Some editor =>
      query ← current_line_text editor;
      if truthy (Some query) then call_current (Sync query) else skip
  | None => skip
  end.

(** 'q-client.querySelection' *)
Definition querySelection : Eff () :=
  w ← get_world;
  match selected_text w with
  | Some query => if truthy (Some query) then call_current (Sync query) else skip
  | None => skip
  end.

(** 'q-term.sendCurrentLine' *)
Definition sendCurrentLine : Eff () :=
  w ← get_world;
  match activeTextEditor w with
  | Some editor =>
      query ← current_line_text editor;
      if truthy (Some query) then sendToCurrentTerm query else skip
  | None => skip
  end.

(** 'q-term.sendSelection' (lines 288-297) *)
Definition sendSelection : Eff () :=
  w ← get_world;
  match selected_text w with
  | Some query =>
      if truthy (Some query) then sendToCurrentTerm (replace_line_breaks query)
      else skip
  | None => skip
  end.

(** 'q-client.terminal.run' *)
Definition terminal_run : Eff () :=
  w ← get_world;
  match fileName ∘ document <$> activeTextEditor w with
  | Some filepath => if truthy (Some filepath) then log (RunQFile filepath) else skip
  | None => skip
  end.

(** The serializer registered for the query view. *)
Definition deserializeWebviewPanel : Eff () := log (Collaborator "QueryView.revive" []).

(** The listener of [workspace.onDidChangeConfiguration] (lines 318-325). *)
Definition onDidChangeConfiguration (e : ConfigurationChangeEvent) : Eff () :=
  if affectsConfiguration e "q-client" && negb (affectsConfiguration e "q-client.term") then
    log (ShowInformationMessage
           "Reload/Restart vscode to Making the Configuration Take Effect.")
  else if affectsConfiguration e "q-server" then
    w ← get_world;
    sendNotification "$/analyze-source-code" (sourceFiles_payload w)
  else skip.

(** 'q-client.sendServerCache' (lines 367-371) *)
Definition sendServerCache (code : JsValue) : Eff () :=
  sendNotification "$/analyze-server-cache" code.

(** The continuation of [client.onReady()] (lines 373-376). *)
Definition onReady : Eff () :=
  w ← get_world;
  sendNotification "$/analyze-source-code" (sourceFiles_payload w).

(** Everything the extension host can ask the registered handlers to do:
    a command with its arguments and the answers of the prompts it opens,
    a configuration change, the client becoming ready, a panel to revive. *)
Inductive Invocation : Type :=
| Cmd_refreshEntry
| Cmd_addEntry
| Cmd_editEntry (qConn : QConn.t)
| Cmd_deleteEntry (qConn : QConn.t) (value : option string)
| Cmd_reactions (option : option string)
| Cmd_connectEntry (option : option string)
| Cmd_connect (uniqLabel : JsValue)
| Cmd_tagEntry (qConn : QConn.t) (answer : option string)
| Cmd_switchMode (mode : option string)
| Cmd_toggleLimitQuery
| Cmd_abortQuery
| Cmd_exportServers
| Cmd_importServers
| Cmd_explorer_refreshEntry
| Cmd_preview (previewQueryLimit : JsValue) (item : TreeItem)
| Cmd_click (label : JsValue)
| Cmd_rerun (history : History.t)
| Cmd_queryCurrentLine
| Cmd_querySelection
| Cmd_sendCurrentLine
| Cmd_sendSelection
| Cmd_terminal_run
| Cmd_sendServerCache (code : JsValue)
| ConfigurationChanged (e : ConfigurationChangeEvent)
| ClientReady
| RevivePanel.

Definition handle (i : Invocation) : Eff () :=
  match i with
  | Cmd_refreshEntry => refreshEntry
  | Cmd_addEntry => addEntry
  | Cmd_editEntry qConn => editEntry qConn
  | Cmd_deleteEntry qConn value => deleteEntry qConn value
  | Cmd_reactions option => reactions option
  | Cmd_connectEntry option => connectEntry option
  | Cmd_connect uniqLabel => connect uniqLabel
  | Cmd_tagEntry qConn answer => tagEntry qConn answer
  | Cmd_switchMode mode => switchMode mode
  | Cmd_toggleLimitQuery => toggleLimitQuery_command
  | Cmd_abortQuery => abortQuery
  | Cmd_exportServers => exportServers
  | Cmd_importServers => importServers
  | Cmd_explorer_refreshEntry => explorer_refreshEntry
  | Cmd_preview previewQueryLimit item => preview previewQueryLimit item
  | Cmd_click label => click label
  | Cmd_rerun history => rerun history
  | Cmd_queryCurrentLine => queryCurrentLine
  | Cmd_querySelection => querySelection
  | Cmd_sendCurrentLine => sendCurrentLine
  | Cmd_sendSelection => sendSelection
  | Cmd_terminal_run => terminal_run
  | Cmd_sendServerCache code => sendServerCache code
  | ConfigurationChanged e => onDidChangeConfiguration e
  | ClientReady => onReady
  | RevivePanel => deserializeWebviewPanel
  end.

(** The identifier a command is registered under. *)
Definition command_id (i : Invocation) : option string :=
  match i with
  | Cmd_refreshEntry => Some "q-client.refreshEntry"
  | Cmd_addEntry => Some "q-client.addEntry"
  | Cmd_editEntry _ => Some "q-client.editEntry"
  | Cmd_deleteEntry _ _ => Some "q-client.deleteEntry"
  | Cmd_reactions _ => Some "q-client.reactions"
  | Cmd_connectEntry _ => Some "q-client.connectEntry"
  | Cmd_connect _ => Some "q-client.connect"
  | Cmd_tagEntry _ _ => Some "q-client.tagEntry"
  | Cmd_switchMode _ => Some "q-client.switchMode"
  | Cmd_toggleLimitQuery => Some "q-client.toggleLimitQuery"
  | Cmd_abortQuery => Some "q-client.abortQuery"
  | Cmd_exportServers => Some "q-client.exportServers"
  | Cmd_importServers => Some "q-client.importServers"
  | Cmd_explorer_refreshEntry => Some "q-explorer.refreshEntry"
  | Cmd_preview _ _ => Some "q-explorer.preview"
  | Cmd_click _ => Some "q-explorer.click"
  | Cmd_rerun _ => Some "q-history.rerun"
  | Cmd_queryCurrentLine => Some "q-client.queryCurrentLine"
  | Cmd_querySelection => Some "q-client.querySelection"
  | Cmd_sendCurrentLine => Some "q-term.sendCurrentLine"
  | Cmd_sendSelection => Some "q-term.sendSelection"
  | Cmd_terminal_run => Some "q-client.terminal.run"
  | Cmd_sendServerCache _ => Some "q-client.sendServerCache"
  | ConfigurationChanged _ | ClientReady | RevivePanel => None
  end.

End Handlers.

(** ** The two manager operations the specification defines in full *)

(** Modelled from the spec: the validation step of
    [QConnManager.setQueryMode] of modules/q-conn-manager; section 4.1 has
    the mode validated "against the enumerated set" of section 3. *)
Definition parse_QueryMode (mode : JsValue) : option QueryMode :=
  match mode with
  | JString s =>
      if bool_decide (s = "Console") then Some Console
      else if bool_decide (s = "Grid") then Some Grid
      else if bool_decide (s = "Virtualization") then Some Virtualization
      else None
  | _ => None
  end.

(** Modelled from the spec: the static [QConnManager.setQueryMode] of
    modules/q-conn-manager; section 4.1: "validates mode against the
    enumerated set; fails silently (no-op) on unrecognized value". *)
Definition setQueryMode (mode : JsValue) (s : QConnManagerStatics) : MethodResult :=
  match parse_QueryMode mode with
  | Some m =>
      {| completion := Normal ();
         after := {| current := current s; queryMode := m |};
         performed := [] |}
  | None =>
      {| completion := Normal (); after := s; performed := [] |}
  end.

(** Modelled from the spec: [toggleLimitQuery] of modules/q-conn-manager;
    section 4.1: "flips limitQueryEnabled; pure, no I/O". *)
Definition toggleLimitQuery (m : QConnManager) : QConnManager :=
  {| qCfg := qCfg m;
     activeConn := activeConn m;
     limitQueryEnabled := negb (limitQueryEnabled m) |}.

(** Modelled from the spec: [toggleLimitQuery] of modules/q-conn-manager as
    a method called on the singleton; it returns normally and, being "pure,
    no I/O", performs nothing. *)
Definition toggleLimitQuery_method (s : QConnManagerStatics) : MethodResult :=
  {| completion := Normal ();
     after := {| current := toggleLimitQuery <$> current s; queryMode := queryMode s |};
     performed := [] |}.

(** Modelled from the spec: a manager of modules/q-conn-manager whose
    [setQueryMode] and [toggleLimitQuery] are the ones of section 4.1;
    [rest] gives the other methods. *)
Definition spec_manager (rest : ManagerImpl) : ManagerImpl := λ m s,
  match m with
  | SetQueryMode mode => setQueryMode mode s
  | ToggleLimitQuery => toggleLimitQuery_method s
  | _ => rest m s
  end.

(** ** Concrete worlds for worked runs *)

(** A manager whose methods only report that they ran. *)
Definition reporting_manager : ManagerImpl := λ m s,
  {| completion := Normal ();
     after := s;
     performed := [ {| channel := "manager"; payload := JNull |} ] |}.

Definition dev1 : QConn.t :=
  {| QConn.label := "dev1"; QConn.uniqLabel := "dev,dev1"; QConn.tags := "dev" |}.

Definition dev2 : QConn.t :=
  {| QConn.label := "dev2"; QConn.uniqLabel := "dev,dev2"; QConn.tags := "dev" |}.

Definition manager_on_dev1 : QConnManager :=
  {| qCfg := [dev1; dev2]; activeConn := Some dev1; limitQueryEnabled := false |}.

Definition sample_document : TextDocument :=
  {| fileName := "/home/q/f.q";
     eol := LF;
     lines := ["f:{[x]"; " x+1"; "}"; ""; "  "; "g:(1;2"; ")"; "a:1"] |}.

(** The editor with the lines 0 (from column 2) to 2 (up to column 1)
    selected. *)
Definition sample_editor : TextEditor :=
  {| document := sample_document;
     selection := {| anchor := {| line := 0; character := 2 |};
                     active := {| line := 2; character := 1 |} |} |}.

Definition sample_configuration : gmap string JsValue :=
  <["q-client.queryMode" := JString "Console"]>
  (<["q-server.sourceFiles.globsPattern" := JArray [JString "**/src/**/*.q"]]>
  (<["q-server.sourceFiles.ignorePattern" := JArray [JString "**/tmp"]]> ∅)).

Definition sample_world : World :=
  {| configuration := sample_configuration;
     activeTextEditor := Some sample_editor;
     QueryConsole_current := true;
     manager := {| current := Some manager_on_dev1; queryMode := Console |};
     trace := [] |}.

(** The same world before any manager has been created. *)
Definition world_without_manager : World :=
  with_manager sample_world {| current := None; queryMode := Console |}.

(** The effects a computation adds to the trace of [w]. *)
Definition added {A} (c : Eff A) (w : World) : list Effect :=
  drop (length (trace w)) (trace (c w).2).

(** ** Vocabulary of the properties *)

(** The code units the replacement keeps. *)
Definition keeps (c : ascii) : bool := negb (is_line_break c).

Fixpoint string_chars (s : string) : list ascii :=
  match s with
  | EmptyString => []
  | String c rest => c :: string_chars rest
  end.

(** A computation only appends to the trace, and only effects that
    satisfy [ok]. *)
Definition emits {A} (ok : Effect → Prop) (c : Eff A) : Prop :=
  ∀ w, ∃ es, trace (c w).2 = trace w ++ es ∧ Forall ok es.

(** The two notifications of the protocol: the scope change with its two
    patterns, and the server cache with the code handed to
    'q-client.sendServerCache'. *)
Definition scope_change (method : string) (params : JsValue) : Prop :=
  method = "$/analyze-source-code" ∧
  ∃ globs ignore, params = JObject [("globsPattern", globs); ("ignorePattern", ignore)].

Definition server_cache (i : Invocation) (method : string) (params : JsValue) : Prop :=
  method = "$/analyze-server-cache" ∧ i = Cmd_sendServerCache params.

Definition protocol_effect (i : Invocation) (e : Effect) : Prop :=
  match e with
  | SendNotification method params =>
      scope_change method params ∨ server_cache i method params
  | _ => True
  end.

(** The scope-change notification built from the settings of [w]. *)
Definition scope_change_notification (w : World) : Effect :=
  SendNotification "$/analyze-source-code"
    (JObject
       [("globsPattern",
         default JUndefined (configuration w !! "q-server.sourceFiles.globsPattern"));
        ("ignorePattern",
         default JUndefined (configuration w !! "q-server.sourceFiles.ignorePattern"))]).

(** An event that changes a client setting and a server setting at once. *)
Definition client_and_server_changed : ConfigurationChangeEvent :=
  changed_settings ["q-client.queryMode"; "q-server.sourceFiles.globsPattern"].

(** The prompt 'q-client.deleteEntry' opens. *)
Definition deleteEntry_prompt (qConn : QConn.t) : Effect :=
  ShowInputBox ("Confirm to Remove Server '"
                +:+ replace_first "," "-" (QConn.uniqLabel qConn) +:+ "' (Y/n)").

(** The result of a method that returns at once and touches nothing. *)
Definition unchanged (s : QConnManagerStatics) : MethodResult :=
  {| completion := Normal (); after := s; performed := [] |}.

(** What 'q-client.switchMode' adds to the trace, once a mode [m] is
    picked, before the status bar is touched. *)
Definition switchMode_front (impl : ManagerImpl) (m : string) (w : World) : list Effect :=
  [ShowQuickPick ["Console"; "Grid"; "Virtualization"]
     "Please choose a query mode from the list below";
   ShowInformationMessage ("Switch to Query " +:+ m +:+ " Mode");
   ManagerCall (SetQueryMode (JString m))]
  ++ (ManagerEffect <$> performed (impl (SetQueryMode (JString m)) (manager w))).

(** All it adds: the status bar follows only when [setQueryMode] returned. *)
Definition switchMode_effects (impl : ManagerImpl) (m : string) (w : World) : list Effect :=
  match completion (impl (SetQueryMode (JString m)) (manager w)) with
  | Normal _ => switchMode_front impl m w ++ [UpdateQueryModeStatus]
  | Throw _ => switchMode_front impl m w
  end.

(** ** What the editor does with the formatter's edits *)

(** The formatter of the source, without the white space test of its loop. *)
Definition bracket_first_edits (document : TextDocument) : list TextEdit :=
  indent_edit <$>
    filter (λ i, from_option matches_closing_bracket false (lines document !! i))
           (seq 0 (lineCount document)).

(** The editor puts the text of an insertion (an edit with an empty range
    and a text without line break) into the line it points to, at the
    column it points to. *)
Definition apply_insertion (e : TextEdit) (ls : list string) : list string :=
  let p := start (edit_range e) in
  alter (λ t, string_take (character p) t +:+ newText e
              +:+ string_drop (character p) t) (line p) ls.

(** The edits of one formatting request all refer to the document as it
    was; insertions on different lines can be applied one after the other. *)
Definition apply_insertions (edits : list TextEdit) (document : TextDocument)
    : TextDocument :=
  {| fileName := fileName document;
     eol := eol document;
     lines := foldr apply_insertion (lines document) edits |}.

(** The line an edit starts on. *)
Definition edit_line (e : TextEdit) : nat := line (start (edit_range e)).

(** ** The on-enter rules of the language configuration (lines 33-60)

    The rules are data handed to the editor: regular expressions on the
    text before and after the cursor and the action to take. A regular
    expression is embedded as its syntax tree and read by derivatives. *)

Inductive Regex : Type :=
| Fail
| Blank
| Class (p : ascii → bool)
| Seq (r1 r2 : Regex)
| Choice (r1 r2 : Regex)
| Many (r : Regex).

(** The strings a regular expression matches from its first to its last
    code unit. *)
Inductive Matches : Regex → string → Prop :=
| M_Blank : Matches Blank ""
| M_Class p c : p c = true → Matches (Class p) (String c "")
| M_Seq r1 r2 s1 s2 :
    Matches r1 s1 → Matches r2 s2 → Matches (Seq r1 r2) (s1 +:+ s2)
| M_Choice_l r1 r2 s : Matches r1 s → Matches (Choice r1 r2) s
| M_Choice_r r1 r2 s : Matches r2 s → Matches (Choice r1 r2) s
| M_Many_nil r : Matches (Many r) ""
| M_Many_cons r s1 s2 :
    Matches r s1 → Matches (Many r) s2 → Matches (Many r) (s1 +:+ s2).

Fixpoint nullable (r : Regex) : bool :=
  match r with
  | Fail => false
  | Blank => true
  | Class _ => false
  | Seq r1 r2 => nullable r1 && nullable r2
  | Choice r1 r2 => nullable r1 || nullable r2
  | Many _ => true
  end.

Fixpoint derive (c : ascii) (r : Regex) : Regex :=
  match r with
  | Fail => Fail
  | Blank => Fail
  | Class p => if p c then Blank else Fail
  | Seq r1 r2 =>
      Choice (Seq (derive c r1) r2) (if nullable r1 then derive c r2 else Fail)
  | Choice r1 r2 => Choice (derive c r1) (derive c r2)
  | Many r1 => Seq (derive c r1) (Many r1)
  end.

Fixpoint accepts (r : Regex) (s : string) : bool :=
  match s with
  | EmptyString => nullable r
  | String c rest => accepts (derive c r) rest
  end.

(** A pattern of the rules: every one starts with [^]; [not_ahead] is a
    negative lookahead [(?!...)] placed right after it, [to_end] tells
    whether the pattern closes with [$]. *)
Record RegExp : Type := {
  not_ahead : option Regex;
  body : Regex;
  to_end : bool
}.

Definition any_unit : Regex := Class (λ _, true).

(** [regexp.test(text)] *)
Definition test (p : RegExp) (s : string) : bool :=
  match not_ahead p with
  | Some n => negb (accepts (Seq n (Many any_unit)) s)
  | None => true
  end
  && accepts (if to_end p then body p else Seq (body p) (Many any_unit)) s.

(** The classes the patterns use: [.], [\s], the opening and the closing
    brackets, and single code units. *)
Definition dot : Regex := Class (λ c, negb (is_line_break c)).
Definition space : Regex := Class is_whitespace.
Definition is_opening (c : ascii) : bool := bool_decide (c ∈ ["("; "["; "{"]%char).
Definition is_closing (c : ascii) : bool := bool_decide (c ∈ [")"; "}"; "]"]%char).
Definition unit_of (a : ascii) : Regex := Class (λ c, bool_decide (c = a)).
Definition optional (r : Regex) : Regex := Choice r Blank.
Definition some_of (r : Regex) : Regex := Seq r (Many r).

Inductive IndentAction : Type := IndentNone | Indent | IndentOutdent | Outdent.

Record EnterAction : Type := {
  indentAction : IndentAction;
  appendText : option string
}.

Record OnEnterRule : Type := {
  beforeText : RegExp;
  afterText : option RegExp;
  action : EnterAction
}.

(** [/^(?!\s+).*[\(\[{].*$/] *)
Definition open_bracket_before : RegExp :=
  {| not_ahead := Some (some_of space);
     body := Seq (Many dot) (Seq (Class is_opening) (Many dot));
     to_end := true |}.

(** [/^[)}\]]/] *)
Definition close_bracket_after : RegExp :=
  {| not_ahead := None; body := Class is_closing; to_end := false |}.

(** [/^\s[)}\]];?$/] *)
Definition indented_close_bracket : RegExp :=
  {| not_ahead := None;
     body := Seq space (Seq (Class is_closing) (optional (unit_of ";")));
     to_end := true |}.

(** [/^\/.*$/] *)
Definition comment_line : RegExp :=
  {| not_ahead := None; body := Seq (unit_of "/") (Many dot); to_end := true |}.

Definition onEnterRules : list OnEnterRule :=
  [ {| beforeText := open_bracket_before;
       afterText := Some close_bracket_after;
       action := {| indentAction := IndentNone;
                    appendText := Some (String LF_char " ") |} |};
    {| beforeText := indented_close_bracket;
       afterText := None;
       action := {| indentAction := Outdent; appendText := None |} |};
    {| beforeText := comment_line;
       afterText := None;
       action := {| indentAction := IndentNone; appendText := Some "/ " |} |} ].

(** A rule applies when each pattern it has matches its text. *)
Definition rule_applies (before after : string) (r : OnEnterRule) : bool :=
  test (beforeText r) before && from_option (λ p, test p after) true (afterText r).

(** On Enter the editor takes the action of the first rule that applies. *)
Definition onEnter (before after : string) : option EnterAction :=
  action <$> head (filter (λ r, rule_applies before after r) onEnterRules).

(** Plain readings of the patterns. *)
Definition starts_with (p : ascii → bool) (s : string) : bool :=
  match s with
  | String c _ => p c
  | EmptyString => false
  end.

Fixpoint string_existsb (p : ascii → bool) (s : string) : bool :=
  match s with
  | EmptyString => false
  | String c rest => p c || string_existsb p rest
  end.

Definition single_line (s : string) : bool := string_forallb keeps s.

(** A white space, a closing bracket and perhaps a semicolon. *)
Definition is_indented_close (s : string) : bool :=
  match s with
  | String w (String b rest) =>
      is_whitespace w && is_closing b &&
      (bool_decide (rest = "") || bool_decide (rest = ";"))
  | _ => false
  end.


(** A slash followed by code units that are no line breaks. *)
Definition is_comment_line (s : string) : bool :=
  match s with
  | String c rest => bool_decide (c = "/"%char) && single_line rest
  | EmptyString => false
  end.

(** No white space in front, no line break, an opening bracket somewhere. *)
Definition has_open_bracket (s : string) : bool :=
  negb (starts_with is_whitespace s) && single_line s && string_existsb is_opening s.

Definition newline_and_space : EnterAction :=
  {| indentAction := IndentNone; appendText := Some (String LF_char " ") |}.

Definition outdent : EnterAction :=
  {| indentAction := Outdent; appendText := None |}.

Definition continue_comment : EnterAction :=
  {| indentAction := IndentNone; appendText := Some "/ " |}.


(** A line as the formatter leaves it. *)
Definition formatted_line (t : string) : string :=
  if matches_closing_bracket t then " " +:+ t else t.




(** A computation that leaves the manager alone: it makes no call on it
    and does not change it. *)
Definition quiet {A} (c : Eff A) : Prop :=
  ∀ w, manager (c w).2 = manager w ∧
       ∃ es, trace (c w).2 = trace w ++ es ∧ manager_calls es = [].



(** A computation that, as long as there is no singleton, leaves the
    manager alone. *)
Definition quiet_without_singleton {A} (c : Eff A) : Prop :=
  ∀ w, current (manager w) = None →
       manager (c w).2 = manager w ∧
       ∃ es, trace (c w).2 = trace w ++ es ∧ manager_calls es = [].






(** The page a run of 'q-client.reactions' opens, if any. *)
Definition opened_pages (es : list Effect) : list string :=
  omap (λ e, match e with
             | OpenExternal uri => Some uri
             | _ => None
             end) es.


(** A manager whose methods all throw. *)
Definition failing_manager : ManagerImpl := λ m s,
  {| completion := Throw (JString "not connected");
     after := s;
     performed := [] |}.

(** The selection of columns 2 to 5 of the first line of the sample. *)
Definition sample_editor_one_line : TextEditor :=
  {| document := sample_document;
     selection := {| anchor := {| line := 0; character := 5 |};
                     active := {| line := 0; character := 2 |} |} |}.


(** The quick pick 'q-client.connectEntry' opens: the labels of the
    configured servers, or nothing without a manager. *)
Definition connectEntry_offer (w : World) : Effect :=
  ShowQuickPick
    (match current (manager w) with
     | Some m => QConn.uniqLabel <$> qCfg m
     | None => []
     end) "Contribute to vscode-q by".

(** * Properties *)

(** ** Worked runs *)

Example format_sample_document :
  provideDocumentFormattingEdits sample_document =
    Normal [TextEdit_insert {| line := 2; character := 0 |} " ";
            TextEdit_insert {| line := 6; character := 0 |} " "].
Proof. reflexivity. Qed.

Example replace_line_breaks_sample :
  replace_line_breaks
    (String "a" (String CR_char (String LF_char (String "b" (String CR_char
       (String "c" (String LF_char (String LF_char "d"))))))))
  = "abcd".
Proof. reflexivity. Qed.

Example selected_text_sample :
  selected_text sample_world =
    Some (String "{" (String "[" (String "x" (String "]" (String LF_char
            (String " " (String "x" (String "+" (String "1" (String LF_char
               "}")))))))))).
Proof. reflexivity. Qed.

Example deleteEntry_sample :
  added (deleteEntry reporting_manager dev1 (Some "Y")) sample_world =
    [ShowInputBox "Confirm to Remove Server 'dev-dev1' (Y/n)";
     ManagerCall (RemoveCfg "dev,dev1");
     ManagerEffect {| channel := "manager"; payload := JNull |}].
Proof. reflexivity. Qed.

Example switchMode_sample :
  added (switchMode (spec_manager reporting_manager) (Some "Grid")) sample_world =
    [ShowQuickPick ["Console"; "Grid"; "Virtualization"]
       "Please choose a query mode from the list below";
     ShowInformationMessage "Switch to Query Grid Mode";
     ManagerCall (SetQueryMode (JString "Grid"));
     UpdateQueryModeStatus] ∧
  queryMode (manager (switchMode (spec_manager reporting_manager) (Some "Grid")
                        sample_world).2) = Grid.
Proof. split; reflexivity. Qed.

Example switchMode_dismissed :
  added (switchMode (spec_manager reporting_manager) None) sample_world =
    [ShowQuickPick ["Console"; "Grid"; "Virtualization"]
       "Please choose a query mode from the list below"].
Proof. reflexivity. Qed.

Example rerun_sample_without_manager :
  rerun reporting_manager {| History.uniqLabel := "dev,dev1"; History.query := "1+1" |}
    world_without_manager = (Normal (), world_without_manager).
Proof. reflexivity. Qed.

Example preview_table_sample :
  manager_calls
    (added (preview reporting_manager (JNumber 1000)
              {| contextValue := Some "qtable"; item_label := Some "trade";
                 getBody := "" |}) sample_world) =
    [Sync "{[t;l]$[t in .Q.pt;select from t where date=last date, i<l;select from t where i<l]}[`trade;1000]"].
Proof. reflexivity. Qed.

Example term_change_still_notifies :
  notifications
    (added (onDidChangeConfiguration
              (changed_settings ["q-client.term.qBinary"; "q-server.sourceFiles.globsPattern"]))
           sample_world) =
    [("$/analyze-source-code",
      JObject [("globsPattern", JArray [JString "**/src/**/*.q"]);
               ("ignorePattern", JArray [JString "**/tmp"])])].
Proof. reflexivity. Qed.

(** ** The formatter *)

Lemma closing_lineb_spec (t : string) : closing_lineb t = true ↔ closing_line t.
Proof.
  unfold closing_lineb, closing_line, matches_closing_bracket.
  rewrite andb_true_iff, negb_true_iff. split.
  - intros [Hws Hm]. destruct t as [|c rest]; [done|].
    apply bool_decide_eq_true in Hm. repeat split; [done|done|eauto].
  - intros (_ & Hws & c & rest & -> & Hc). split; [done|].
    by apply bool_decide_eq_true.
Qed.

(** A line that begins with a closing bracket is never white space only:
    the guard of the loop does not change the result. *)
Lemma closing_bracket_not_blank (t : string) :
  matches_closing_bracket t = true → string_forallb is_whitespace t = false.
Proof.
  destruct t as [|c rest]; [done|]. simpl. intros Hc%bool_decide_eq_true.
  apply andb_false_iff. left.
  set_unfold in Hc. destruct Hc as [->|[->|[->|[]]]]; reflexivity.
Qed.

Lemma indent_edit_inj : Inj (=) (=) indent_edit.
Proof. intros i j Heq. by injection Heq. Qed.

Lemma format_lines_from (document : TextDocument) (n i : nat) (acc : list TextEdit) :
  i + n = lineCount document →
  format_lines document n i acc =
    Normal (acc ++ (indent_edit <$>
      filter (λ j, from_option closing_lineb false (lines document !! j)) (seq i n))).
Proof.
  revert i acc. induction n as [|n IH]; intros i acc Hlen; simpl.
  - by rewrite app_nil_r.
  - unfold lineCount in Hlen.
    destruct (lookup_lt_is_Some_2 (lines document) i) as [t Ht]; [lia|].
    unfold lineAt. rewrite Ht. simpl.
    destruct (string_forallb is_whitespace t) eqn:Hws.
    + rewrite IH by (unfold lineCount; lia).
      rewrite filter_cons_False; [done|].
      rewrite Ht. simpl. unfold closing_lineb. rewrite Hws. simpl. tauto.
    + destruct (matches_closing_bracket t) eqn:Hm.
      * rewrite IH by (unfold lineCount; lia).
        rewrite filter_cons_True.
        2:{ rewrite Ht. simpl. unfold closing_lineb. by rewrite Hws, Hm. }
        rewrite fmap_cons, <- app_assoc. done.
      * rewrite IH by (unfold lineCount; lia).
        rewrite filter_cons_False; [done|].
        rewrite Ht. simpl. unfold closing_lineb. rewrite Hws, Hm. simpl. tauto.
Qed.

Lemma elem_of_expected_edits (document : TextDocument) (e : TextEdit) :
  e ∈ expected_edits document ↔
  ∃ i t, lines document !! i = Some t ∧ closing_line t ∧ e = indent_edit i.
Proof.
  unfold expected_edits. rewrite list_elem_of_fmap. split.
  - intros (i & -> & Hi). apply list_elem_of_filter in Hi as [Hp _].
    destruct (lines document !! i) as [t|] eqn:Ht; simpl in Hp; [|done].
    exists i, t. split; [done|]. split; [|done].
    by apply closing_lineb_spec, Is_true_eq_true.
  - intros (i & t & Ht & Hc & ->). exists i. split; [done|].
    apply list_elem_of_filter. split.
    + rewrite Ht. simpl. by apply Is_true_eq_left, closing_lineb_spec.
    + apply elem_of_seq. apply lookup_lt_Some in Ht. unfold lineCount. lia.
Qed.

(** C9: the formatter of 'q' documents returns, in line order, exactly one
    edit for each line that is non-empty, not white space only and begins
    with [)], []] or [}] -- the insertion of one space at the start of that
    line -- and no other edit; without such a line the result is empty. *)
Theorem formatter_indents_closing_lines (document : TextDocument) :
  provideDocumentFormattingEdits document = Normal (expected_edits document) ∧
  (∀ e, e ∈ expected_edits document ↔
        ∃ i t, lines document !! i = Some t ∧ closing_line t ∧
               e = TextEdit_insert {| line := i; character := 0 |} " ") ∧
  NoDup (expected_edits document) ∧
  ((∀ t, t ∈ lines document → ¬ closing_line t) → expected_edits document = []).
Proof.
  split; [|split; [|split]].
  - unfold provideDocumentFormattingEdits.
    by rewrite format_lines_from by done.
  - apply elem_of_expected_edits.
  - unfold expected_edits. apply (NoDup_fmap_2 _ (Inj0 := indent_edit_inj)).
    apply NoDup_filter, NoDup_seq.
  - intros Hnone. destruct (expected_edits document) as [|e es] eqn:He; [done|].
    assert (e ∈ expected_edits document) as Hin by (rewrite He; left).
    apply elem_of_expected_edits in Hin as (i & t & Ht & Hc & _).
    destruct (Hnone t); [|done]. by eapply list_elem_of_lookup_2.
Qed.

(** ** The selection sent to the terminal *)

(** One step of the scan: whether the pattern matches as [\r\n], [\n] or
    [\r], what is left to scan has the same replacement. *)
Lemma replace_line_breaks_cons (c : ascii) (s : string) :
  replace_line_breaks (String c s) =
    if is_line_break c then replace_line_breaks s
    else String c (replace_line_breaks s).
Proof.
  unfold is_line_break. destruct s as [|c' s]; simpl.
  - by repeat case_bool_decide.
  - destruct (bool_decide (c = CR_char)) eqn:Hcr; simpl; [|done].
    destruct (bool_decide (c' = LF_char)) eqn:Hlf; [|done].
    destruct (bool_decide (c' = CR_char)) eqn:Hcr'; [|done].
    apply bool_decide_eq_true in Hlf, Hcr'. by subst.
Qed.

(** Replacing every match of the pattern by nothing removes exactly the
    carriage returns and line feeds. *)
Lemma replace_line_breaks_filter (query : string) :
  replace_line_breaks query = string_filter keeps query.
Proof.
  induction query as [|c s IH]; [done|].
  rewrite replace_line_breaks_cons. simpl. unfold keeps.
  destruct (is_line_break c); simpl; by rewrite IH.
Qed.

Lemma string_filter_chars (p : ascii → bool) (s : string) (c : ascii) :
  c ∈ string_chars (string_filter p s) ↔ c ∈ string_chars s ∧ p c = true.
Proof.
  induction s as [|c' s IH]; simpl.
  - split; [intros H | intros [H _]]; by apply elem_of_nil in H.
  - destruct (p c') eqn:Hp; simpl; rewrite ?elem_of_cons, IH.
    + split; [intros [->|[? ?]]; auto | intros [[->|?] ?]; auto].
    + split; [intros [? ?]; auto | intros [[->|?] ?]; [congruence | auto]].
Qed.

Lemma getText_empty_range (document : TextDocument) (p : Position) :
  getText document (new_Range p p) = "".
Proof.
  unfold new_Range, getText.
  destruct (isBefore p p); simpl; by rewrite decide_True.
Qed.

Lemma Selection_isEmpty_ends (s : Selection) :
  Selection_isEmpty s → Selection_start s = Selection_end s.
Proof.
  unfold Selection_isEmpty, Selection_start, Selection_end. intros ->.
  by destruct (isBefore _ _).
Qed.

(** ** How handlers extend the trace *)

Section Emits.

Variable impl : ManagerImpl.
Variable ok : Effect → Prop.

(** Entering the manager, and whatever the manager does inside, is allowed. *)
Hypothesis ok_call : ∀ m, ok (ManagerCall m).
Hypothesis ok_io : ∀ io, ok (ManagerEffect io).

Lemma emits_ret {A} (a : A) : emits ok (mret a : Eff A).
Proof. intros w. exists []. by rewrite app_nil_r. Qed.

Lemma emits_skip : emits ok skip.
Proof. apply emits_ret. Qed.

Lemma emits_get_world : emits ok get_world.
Proof. intros w. exists []. by rewrite app_nil_r. Qed.

Lemma emits_lift {A} (c : Completion A) : emits ok (lift_completion c).
Proof. intros w. exists []. by rewrite app_nil_r. Qed.

Lemma emits_log (e : Effect) : ok e → emits ok (log e).
Proof. intros He w. exists [e]. split; [done|]. by apply Forall_singleton. Qed.

Lemma emits_bind {A B} (c : Eff A) (k : A → Eff B) :
  emits ok c → (∀ a, emits ok (k a)) → emits ok (c ≫= k).
Proof.
  intros Hc Hk w. unfold mbind, Eff_bind.
  destruct (Hc w) as (es & Hes & Hok).
  destruct (c w) as [[a|e] w'] eqn:Hcw; simpl in *.
  - destruct (Hk a w') as (es' & Hes' & Hok').
    exists (es ++ es'). split.
    + by rewrite Hes', Hes, app_assoc.
    + by apply Forall_app.
  - by exists es.
Qed.

Lemma emits_call_manager (m : ManagerMethod) : emits ok (call_manager impl m).
Proof.
  intros w. exists (ManagerCall m :: (ManagerEffect <$> performed (impl m (manager w)))).
  split; [done|]. apply Forall_cons. split; [apply ok_call|].
  apply Forall_fmap, Forall_true. intros io. apply ok_io.
Qed.

Lemma emits_call_current (m : ManagerMethod) : emits ok (call_current impl m).
Proof.
  intros w. unfold call_current.
  destruct (current (manager w)); [apply emits_call_manager|].
  exists []. by rewrite app_nil_r.
Qed.

End Emits.

Create HintDb emits.

#[local] Hint Resolve emits_ret emits_skip emits_get_world emits_lift : emits.

(** Splits a handler along its binds and branches. *)
Ltac emits_step :=
  match goal with
  | |- emits _ (_ ≫= _) => apply emits_bind; [|intros ?]
  | |- emits _ (if ?b then _ else _) => destruct b
  | |- emits _ (match ?x with _ => _ end) => destruct x
  | |- emits _ (log _) => apply emits_log; simpl
  | |- emits _ (sendNotification _ _) => apply emits_log; simpl
  | |- emits _ (sendToCurrentTerm _) => apply emits_log; simpl
  | |- emits _ (call_manager _ _) => apply emits_call_manager; intros; simpl
  | |- emits _ (call_current _ _) => apply emits_call_current; intros; simpl
  | |- emits _ _ => solve [eauto with emits]
  end.

(** ** Notifications to the language server *)

Lemma scope_change_payload (w : World) :
  scope_change "$/analyze-source-code" (sourceFiles_payload w).
Proof. split; [done|]. unfold sourceFiles_payload. eauto. Qed.

Lemma handle_emits_protocol (impl : ManagerImpl) (i : Invocation) :
  emits (protocol_effect i) (handle impl i).
Proof.
  destruct i; simpl;
    unfold refreshEntry, addEntry, editEntry, deleteEntry, reactions, connectEntry,
      connect, tagEntry, switchMode, toggleLimitQuery_command, abortQuery,
      exportServers, importServers, explorer_refreshEntry, preview, click, rerun,
      queryCurrentLine, querySelection, sendCurrentLine, sendSelection,
      terminal_run, sendServerCache, onDidChangeConfiguration, onReady,
      deserializeWebviewPanel, current_line_text;
    repeat emits_step; try done.
  - right. by split.
  - left. apply scope_change_payload.
  - left. apply scope_change_payload.
Qed.

(** C6: whatever the extension host asks of the registered handlers, every
    notification they send to the language server is either
    '$/analyze-source-code' with a [{globsPattern, ignorePattern}] payload or
    '$/analyze-server-cache' with the code given to the command; no other
    notification is sent. *)
Theorem notifications_are_of_two_kinds
    (impl : ManagerImpl) (i : Invocation) (w : World) :
  ∃ es, trace (handle impl i w).2 = trace w ++ es ∧
    ∀ method params, SendNotification method params ∈ es →
      (method = "$/analyze-source-code" ∧
       ∃ globs ignore,
         params = JObject [("globsPattern", globs); ("ignorePattern", ignore)]) ∨
      (method = "$/analyze-server-cache" ∧ i = Cmd_sendServerCache params).
Proof.
  destruct (handle_emits_protocol impl i w) as (es & Hes & Hok).
  exists es. split; [done|]. intros method params Hin.
  rewrite Forall_forall in Hok. apply (Hok _ Hin).
Qed.

(** ** Calls on the connection manager *)

Lemma added_app {A} (c : Eff A) (w : World) (es : list Effect) :
  trace (c w).2 = trace w ++ es → added c w = es.
Proof. unfold added. intros ->. by rewrite drop_app_length. Qed.

Lemma manager_calls_io (ios : list ManagerIO) :
  manager_calls (ManagerEffect <$> ios) = [].
Proof. induction ios as [|io ios IH]; [done|]. simpl. apply IH. Qed.

Lemma call_manager_trace (impl : ManagerImpl) (m : ManagerMethod) (w : World) :
  trace (call_manager impl m w).2 =
    trace w ++ ManagerCall m :: (ManagerEffect <$> performed (impl m (manager w))).
Proof. done. Qed.

Lemma call_manager_calls (impl : ManagerImpl) (m : ManagerMethod) (w : World) :
  manager_calls (added (call_manager impl m) w) = [m].
Proof.
  rewrite (added_app _ _ _ (call_manager_trace impl m w)).
  unfold manager_calls. simpl. f_equal. apply manager_calls_io.
Qed.

Lemma call_current_some (impl : ManagerImpl) (m : ManagerMethod) (w : World)
    (c : QConnManager) :
  current (manager w) = Some c → call_current impl m w = call_manager impl m w.
Proof. unfold call_current. by intros ->. Qed.

(** Without a singleton an optional call does nothing at all. *)
Lemma call_current_none (impl : ManagerImpl) (m : ManagerMethod) (w : World) :
  current (manager w) = None → call_current impl m w = (Normal (), w).
Proof. unfold call_current. by intros ->. Qed.

Lemma rerun_unfold (impl : ManagerImpl) (history : History.t) (w : World) :
  rerun impl history w =
    if bool_decide (active_uniqLabel w = Some (History.uniqLabel history))
    then call_current impl (Sync (History.query history)) w
    else call_current impl (Connect (JString (History.uniqLabel history))
                                    (Some (History.query history))) w.
Proof.
  unfold rerun, mbind, Eff_bind, get_world. by case_bool_decide.
Qed.

(** Without a singleton the rerun command does nothing. *)
Lemma rerun_without_manager (impl : ManagerImpl) (history : History.t) (w : World) :
  current (manager w) = None → rerun impl history w = (Normal (), w).
Proof.
  intros Hnone. rewrite rerun_unfold.
  case_bool_decide; by apply call_current_none.
Qed.

(** C1: 'q-history.rerun', with the manager in place, compares the label of
    the history record with the label of the active connection; when they
    are equal it is the call [sync(history.query)] on the manager, and
    otherwise (another connection is active, or none) it is the call
    [connect(history.uniqLabel, history.query)]. In both cases that call is
    the only one made on the manager. *)
Theorem rerun_delegates
    (impl : ManagerImpl) (history : History.t) (w : World) (m : QConnManager) :
  current (manager w) = Some m →
  (QConn.uniqLabel <$> activeConn m = Some (History.uniqLabel history) →
     rerun impl history w = call_manager impl (Sync (History.query history)) w ∧
     manager_calls (added (rerun impl history) w) = [Sync (History.query history)]) ∧
  (QConn.uniqLabel <$> activeConn m ≠ Some (History.uniqLabel history) →
     rerun impl history w =
       call_manager impl (Connect (JString (History.uniqLabel history))
                                  (Some (History.query history))) w ∧
     manager_calls (added (rerun impl history) w) =
       [Connect (JString (History.uniqLabel history)) (Some (History.query history))]).
Proof.
  intros Hcur.
  assert (active_uniqLabel w = QConn.uniqLabel <$> activeConn m) as Hact.
  { unfold active_uniqLabel. rewrite Hcur. simpl. by destruct (activeConn m). }
  split; intros Hlabel.
  - assert (rerun impl history w = call_manager impl (Sync (History.query history)) w)
      as Heq.
    { rewrite rerun_unfold, Hact, bool_decide_eq_true_2 by done.
      by eapply call_current_some. }
    split; [done|]. unfold added. rewrite Heq. apply call_manager_calls.
  - assert (rerun impl history w =
              call_manager impl (Connect (JString (History.uniqLabel history))
                                         (Some (History.query history))) w) as Heq.
    { rewrite rerun_unfold, Hact, bool_decide_eq_false_2 by done.
      by eapply call_current_some. }
    split; [done|]. unfold added. rewrite Heq. apply call_manager_calls.
Qed.

(** A run of C1 on the sample world: [dev1] is active, a record of [dev1]
    is synced and a record of [dev2] reconnects. *)
Lemma rerun_delegates_witness :
  (rerun reporting_manager {| History.uniqLabel := "dev,dev1"; History.query := "1+1" |}
     sample_world
   = call_manager reporting_manager (Sync "1+1") sample_world) ∧
  (manager_calls
     (added (rerun reporting_manager
               {| History.uniqLabel := "dev,dev2"; History.query := "til 3" |})
            sample_world)
   = [Connect (JString "dev,dev2") (Some "til 3")]).
Proof.
  split.
  - apply (rerun_delegates reporting_manager
             {| History.uniqLabel := "dev,dev1"; History.query := "1+1" |}
             sample_world manager_on_dev1); reflexivity.
  - apply (rerun_delegates reporting_manager
             {| History.uniqLabel := "dev,dev2"; History.query := "til 3" |}
             sample_world manager_on_dev1); [reflexivity|].
    simpl. intros Heq. discriminate Heq.
Defined.

(** ** Deleting a server entry *)

Lemma deleteEntry_confirmed (impl : ManagerImpl) (qConn : QConn.t) (w : World) :
  deleteEntry impl qConn (Some "Y") w =
    call_current impl (RemoveCfg (QConn.uniqLabel qConn))
      (with_trace w (trace w ++ [deleteEntry_prompt qConn])).
Proof. done. Qed.

Lemma deleteEntry_declined (impl : ManagerImpl) (qConn : QConn.t)
    (value : option string) (w : World) :
  value ≠ Some "Y" →
  deleteEntry impl qConn value w =
    (Normal (), with_trace w (trace w ++ [deleteEntry_prompt qConn])).
Proof.
  intros Hne. unfold deleteEntry, mbind, Eff_bind, log. simpl.
  by rewrite bool_decide_eq_false_2.
Qed.

(** C8: in 'q-client.deleteEntry', with the manager in place, [removeCfg] is
    called exactly when the input box resolves to the string "Y", and then
    with the label of the entry; for any other answer (or none) no method of
    the manager is called and the manager, with its configuration set, is
    left as it was. *)
Theorem deleteEntry_removes_iff_Y
    (impl : ManagerImpl) (qConn : QConn.t) (value : option string) (w : World)
    (m : QConnManager) :
  current (manager w) = Some m →
  ((∃ l, RemoveCfg l ∈ manager_calls (added (deleteEntry impl qConn value) w)) ↔
     value = Some "Y") ∧
  (value = Some "Y" →
     manager_calls (added (deleteEntry impl qConn value) w) =
       [RemoveCfg (QConn.uniqLabel qConn)]) ∧
  (value ≠ Some "Y" →
     manager_calls (added (deleteEntry impl qConn value) w) = [] ∧
     manager (deleteEntry impl qConn value w).2 = manager w).
Proof.
  intros Hcur.
  assert (value = Some "Y" →
          manager_calls (added (deleteEntry impl qConn value) w) =
            [RemoveCfg (QConn.uniqLabel qConn)]) as Hyes.
  { intros ->. erewrite added_app; last first.
    { rewrite deleteEntry_confirmed.
      erewrite call_current_some by exact Hcur.
      rewrite call_manager_trace. simpl. by rewrite <- app_assoc. }
    simpl. unfold manager_calls. simpl. f_equal. apply manager_calls_io. }
  assert (value ≠ Some "Y" →
          manager_calls (added (deleteEntry impl qConn value) w) = [] ∧
          manager (deleteEntry impl qConn value w).2 = manager w) as Hno.
  { intros Hne. rewrite (added_app _ _ [deleteEntry_prompt qConn]);
      by rewrite deleteEntry_declined. }
  split; [|by split].
  split.
  - intros [l Hl]. destruct (decide (value = Some "Y")) as [|Hne]; [done|].
    destruct (Hno Hne) as [Hnil _]. rewrite Hnil in Hl. by apply elem_of_nil in Hl.
  - intros Hy. exists (QConn.uniqLabel qConn). rewrite (Hyes Hy). left.
Qed.

(** A run of C8 on the sample world: "Y" removes [dev1], "y" does not. *)
Lemma deleteEntry_removes_iff_Y_witness :
  manager_calls (added (deleteEntry reporting_manager dev1 (Some "Y")) sample_world)
    = [RemoveCfg "dev,dev1"] ∧
  manager_calls (added (deleteEntry reporting_manager dev1 (Some "y")) sample_world)
    = [].
Proof.
  split.
  - apply (deleteEntry_removes_iff_Y reporting_manager dev1 (Some "Y") sample_world
             manager_on_dev1); reflexivity.
  - apply (deleteEntry_removes_iff_Y reporting_manager dev1 (Some "y") sample_world
             manager_on_dev1); [reflexivity|].
    intros Heq. discriminate Heq.
Defined.

(** ** Scope-change notifications *)

(** C2, as stated, fails: a change that affects 'q-server' together with a
    'q-client' setting outside 'q-client.term' takes the first branch of the
    listener, which only shows the reload message; nothing is sent. *)
Lemma config_change_without_notification :
  affectsConfiguration client_and_server_changed "q-server" = true ∧
  added (onDidChangeConfiguration client_and_server_changed) sample_world =
    [ShowInformationMessage
       "Reload/Restart vscode to Making the Configuration Take Effect."] ∧
  notifications (added (onDidChangeConfiguration client_and_server_changed) sample_world)
    = [].
Proof. by vm_compute. Qed.

(** C2, amended: a configuration change that affects 'q-server', and does not
    affect 'q-client' other than through 'q-client.term', makes the listener
    send exactly the notification '$/analyze-source-code' with the
    globsPattern and ignorePattern read from 'q-server.sourceFiles'. *)
Theorem config_change_notifies_scope (e : ConfigurationChangeEvent) (w : World) :
  affectsConfiguration e "q-server" = true →
  (affectsConfiguration e "q-client" = false ∨
   affectsConfiguration e "q-client.term" = true) →
  onDidChangeConfiguration e w =
    (Normal (), with_trace w (trace w ++ [scope_change_notification w])) ∧
  added (onDidChangeConfiguration e) w = [scope_change_notification w].
Proof.
  intros Hserver Hclient.
  assert (onDidChangeConfiguration e w =
            (Normal (), with_trace w (trace w ++ [scope_change_notification w])))
    as Heq.
  { unfold onDidChangeConfiguration. rewrite Hserver.
    by destruct Hclient as [-> | ->]; [|rewrite andb_false_r]. }
  split; [done|]. apply added_app. by rewrite Heq.
Qed.

(** A run of the amended C2: only a server setting changes. *)
Lemma config_change_notifies_scope_witness :
  added (onDidChangeConfiguration
           (changed_settings ["q-server.sourceFiles.ignorePattern"])) sample_world
  = [SendNotification "$/analyze-source-code"
       (JObject [("globsPattern", JArray [JString "**/src/**/*.q"]);
                 ("ignorePattern", JArray [JString "**/tmp"])])].
Proof.
  apply (config_change_notifies_scope
           (changed_settings ["q-server.sourceFiles.ignorePattern"]) sample_world).
  - reflexivity.
  - left. reflexivity.
Defined.

(** C3: when the language client becomes ready, the continuation sends
    exactly one notification, '$/analyze-source-code', whose payload holds
    the globsPattern and ignorePattern of 'q-server.sourceFiles'; it does
    nothing else and does not throw. *)
Theorem onReady_sends_one_scope_change (w : World) :
  onReady w = (Normal (), with_trace w (trace w ++ [scope_change_notification w])) ∧
  notifications (added onReady w) =
    [("$/analyze-source-code",
      JObject [("globsPattern", getConfiguration (Some "q-server.sourceFiles") w "globsPattern");
               ("ignorePattern", getConfiguration (Some "q-server.sourceFiles") w "ignorePattern")])] ∧
  length (notifications (added onReady w)) = 1.
Proof.
  assert (onReady w =
            (Normal (), with_trace w (trace w ++ [scope_change_notification w])))
    as Heq by done.
  split; [done|].
  rewrite (added_app _ _ [scope_change_notification w]) by (by rewrite Heq).
  by split.
Qed.

(** ** The query mode *)

Lemma parse_QueryMode_string (mode : string) :
  parse_QueryMode (JString mode) = None ↔
  mode ∉ ["Console"; "Grid"; "Virtualization"].
Proof.
  simpl. rewrite !not_elem_of_cons. split.
  - intros Hp. repeat case_bool_decide; try done.
    repeat split; [done..|]. apply not_elem_of_nil.
  - intros (H1 & H2 & H3 & _). by rewrite !bool_decide_eq_false_2 by done.
Qed.

Lemma setQueryMode_completes (mode : JsValue) (s : QConnManagerStatics) :
  completion (setQueryMode mode s) = Normal () ∧ performed (setQueryMode mode s) = [].
Proof. unfold setQueryMode. by destruct (parse_QueryMode mode). Qed.

(** C4: [setQueryMode] checks its argument against Console, Grid and
    Virtualization. A string outside that set is a silent no-op: the call
    returns normally, the state is unchanged and nothing else happens; a
    string of the set selects that mode. No argument makes it throw, so the
    call at startup, which passes whatever the settings hold under
    'q-client.queryMode', returns normally. *)
Theorem setQueryMode_ignores_unknown_modes
    (mode : string) (s : QConnManagerStatics) (rest : ManagerImpl) (w : World) :
  (mode ∉ ["Console"; "Grid"; "Virtualization"] →
     setQueryMode (JString mode) s = unchanged s) ∧
  (mode ∈ ["Console"; "Grid"; "Virtualization"] →
     ∃ q, parse_QueryMode (JString mode) = Some q ∧
          after (setQueryMode (JString mode) s) =
            {| current := current s; queryMode := q |}) ∧
  completion (setQueryMode (JString mode) s) = Normal () ∧
  (startup_setQueryMode (spec_manager rest) w).1 = Normal () ∧
  (parse_QueryMode (getConfiguration None w "q-client.queryMode") = None →
     manager (startup_setQueryMode (spec_manager rest) w).2 = manager w).
Proof.
  split; [|split; [|split; [|split]]].
  - intros Hout%parse_QueryMode_string. unfold setQueryMode. by rewrite Hout.
  - intros Hin. destruct (parse_QueryMode (JString mode)) as [q|] eqn:Hq.
    + exists q. split; [done|]. unfold setQueryMode. by rewrite Hq.
    + by apply parse_QueryMode_string in Hq.
  - apply setQueryMode_completes.
  - unfold startup_setQueryMode, mbind, Eff_bind, get_world, call_manager. simpl.
    apply setQueryMode_completes.
  - intros Hnone.
    unfold startup_setQueryMode, mbind, Eff_bind, get_world, call_manager. simpl.
    unfold setQueryMode. by rewrite Hnone.
Qed.

(** A run of C4: a stale mode name is ignored, a valid one is taken. *)
Lemma setQueryMode_ignores_unknown_modes_witness :
  setQueryMode (JString "Table") (manager sample_world) = unchanged (manager sample_world) ∧
  (∃ q, parse_QueryMode (JString "Grid") = Some q ∧
        after (setQueryMode (JString "Grid") (manager sample_world)) =
          {| current := current (manager sample_world); queryMode := q |}).
Proof.
  split.
  - apply (setQueryMode_ignores_unknown_modes "Table" (manager sample_world)
             reporting_manager sample_world).
    apply (bool_decide_eq_false_1 _). reflexivity.
  - apply (setQueryMode_ignores_unknown_modes "Grid" (manager sample_world)
             reporting_manager sample_world).
    apply (bool_decide_eq_true_1 _). reflexivity.
Defined.

(** ** The query limit *)

Lemma toggleLimitQuery_twice (m : QConnManager) :
  toggleLimitQuery (toggleLimitQuery m) = m.
Proof. destruct m as [cfg conn limit]. unfold toggleLimitQuery. simpl. by rewrite negb_involutive. Qed.

(** C5: [toggleLimitQuery] flips [limitQueryEnabled] and nothing else -- the
    configurations, the active connection and the query mode stay as they
    are, no I/O is performed and the call returns normally -- so two calls in
    a row restore the flag, and the manager, to what they were; the same
    holds for two runs of the command 'q-client.toggleLimitQuery'. *)
Theorem toggleLimitQuery_double_toggle
    (m : QConnManager) (s : QConnManagerStatics) (rest : ManagerImpl) (w : World) :
  toggleLimitQuery (toggleLimitQuery m) = m ∧
  limitQueryEnabled (toggleLimitQuery (toggleLimitQuery m)) = limitQueryEnabled m ∧
  limitQueryEnabled (toggleLimitQuery m) = negb (limitQueryEnabled m) ∧
  qCfg (toggleLimitQuery m) = qCfg m ∧
  activeConn (toggleLimitQuery m) = activeConn m ∧
  performed (toggleLimitQuery_method s) = [] ∧
  completion (toggleLimitQuery_method s) = Normal () ∧
  queryMode (after (toggleLimitQuery_method s)) = queryMode s ∧
  after (toggleLimitQuery_method (after (toggleLimitQuery_method s))) = s ∧
  manager ((toggleLimitQuery_command (spec_manager rest);;
            toggleLimitQuery_command (spec_manager rest)) w).2 = manager w.
Proof.
  assert (after (toggleLimitQuery_method (after (toggleLimitQuery_method s))) = s)
    as Hs.
  { destruct s as [[c|] q]; simpl; [|done].
    unfold toggleLimitQuery_method. simpl. by rewrite toggleLimitQuery_twice. }
  repeat split; try done.
  - apply toggleLimitQuery_twice.
  - by rewrite toggleLimitQuery_twice.
  - unfold toggleLimitQuery_command, mbind, Eff_bind, call_current, call_manager.
    destruct w as [cfg ed qc [[c|] q] tr]; simpl; [|done].
    by rewrite toggleLimitQuery_twice.
Qed.

(** ** Switching the query mode *)

(** The last element of a list that does not hold it earlier splits the
    list in one way only. *)
Lemma split_at_last {A} (x : A) (front pre post : list A) :
  x ∉ front → front ++ [x] = pre ++ x :: post → pre = front ∧ post = [].
Proof.
  revert pre. induction front as [|a front IH]; intros pre Hnotin Heq.
  - destruct pre as [|b pre]; simpl in Heq.
    + by injection Heq as <-.
    + injection Heq as _ Heq. by destruct pre.
  - apply not_elem_of_cons in Hnotin as [Hne Hnotin].
    destruct pre as [|b pre]; simpl in Heq.
    + by injection Heq as Heq _.
    + injection Heq as <- Heq. destruct (IH pre Hnotin Heq) as [-> ->]. done.
Qed.

Lemma status_not_in_io (ios : list ManagerIO) :
  UpdateQueryModeStatus ∉ (ManagerEffect <$> ios : list Effect).
Proof. intros (io & Hio & _)%list_elem_of_fmap. discriminate Hio. Qed.

Lemma switchMode_front_no_status (impl : ManagerImpl) (m : string) (w : World) :
  UpdateQueryModeStatus ∉ switchMode_front impl m w.
Proof.
  unfold switchMode_front. rewrite not_elem_of_app. split; [|apply status_not_in_io].
  rewrite !not_elem_of_cons. repeat split; [done..|]. apply not_elem_of_nil.
Qed.

Lemma switchMode_added (impl : ManagerImpl) (mode : option string) (w : World) :
  added (switchMode impl mode) w =
    match mode with
    | Some m =>
        if truthy mode then switchMode_effects impl m w
        else [ShowQuickPick ["Console"; "Grid"; "Virtualization"]
                "Please choose a query mode from the list below"]
    | None => [ShowQuickPick ["Console"; "Grid"; "Virtualization"]
                 "Please choose a query mode from the list below"]
    end.
Proof.
  apply added_app.
  destruct mode as [[|c rest]|]; try done.
  unfold switchMode, switchMode_effects, switchMode_front.
  unfold mbind, Eff_bind, log, call_manager. simpl.
  destruct (completion _); simpl; by rewrite <- !app_assoc.
Qed.

(** C7: in 'q-client.switchMode' the status bar is told of the query mode
    ([updateQueryModeStatus]) only when the user picked a mode, only after
    the call [QConnManager.setQueryMode(mode)] was made and returned, and as
    the last step: the manager is then in the state that call left. *)
Theorem switchMode_status_follows_transition
    (impl : ManagerImpl) (mode : option string) (w : World) (pre post : list Effect) :
  added (switchMode impl mode) w = pre ++ UpdateQueryModeStatus :: post →
  ∃ m, mode = Some m ∧ m ≠ "" ∧
       ManagerCall (SetQueryMode (JString m)) ∈ pre ∧
       (UpdateQueryModeStatus ∉ pre) ∧
       completion (impl (SetQueryMode (JString m)) (manager w)) = Normal () ∧
       manager (switchMode impl mode w).2 =
         after (impl (SetQueryMode (JString m)) (manager w)) ∧
       post = [].
Proof.
  rewrite switchMode_added. intros Hsplit.
  destruct mode as [m|]; [|destruct pre as [|? [|? ?]]; discriminate Hsplit].
  destruct (truthy (Some m)) eqn:Htruthy;
    [|destruct pre as [|? [|? ?]]; discriminate Hsplit].
  exists m.
  pose proof (switchMode_front_no_status impl m w) as Hfront.
  unfold switchMode_effects in Hsplit.
  destruct (completion (impl (SetQueryMode (JString m)) (manager w)))
    as [[]|e] eqn:Hdone.
  - destruct (split_at_last _ _ _ _ Hfront Hsplit) as [-> ->].
    repeat split; try done.
    + intros ->. discriminate Htruthy.
    + unfold switchMode_front. apply elem_of_app. left.
      do 2 right. left.
    + unfold switchMode. rewrite Htruthy.
      unfold mbind, Eff_bind, log, call_manager. simpl. by rewrite Hdone.
  - destruct Hfront. rewrite Hsplit. apply elem_of_app. right. left.
Qed.

(** A run of C7 on the sample world: the user picks "Grid". *)
Lemma switchMode_status_follows_transition_witness :
  ∃ m, Some "Grid" = Some m ∧ m ≠ "" ∧
       ManagerCall (SetQueryMode (JString m)) ∈
         [ShowQuickPick ["Console"; "Grid"; "Virtualization"]
            "Please choose a query mode from the list below";
          ShowInformationMessage "Switch to Query Grid Mode";
          ManagerCall (SetQueryMode (JString "Grid"))] ∧
       (UpdateQueryModeStatus ∉
         [ShowQuickPick ["Console"; "Grid"; "Virtualization"]
            "Please choose a query mode from the list below";
          ShowInformationMessage "Switch to Query Grid Mode";
          ManagerCall (SetQueryMode (JString "Grid"))]) ∧
       completion (spec_manager reporting_manager (SetQueryMode (JString m))
                     (manager sample_world)) = Normal () ∧
       manager (switchMode (spec_manager reporting_manager) (Some "Grid") sample_world).2 =
         after (spec_manager reporting_manager (SetQueryMode (JString m))
                  (manager sample_world)) ∧
       [] = @nil Effect.
Proof.
  apply (switchMode_status_follows_transition (spec_manager reporting_manager)
           (Some "Grid") sample_world).
  reflexivity.
Defined.

(** ** Sending the selection to the terminal *)

Lemma sendSelection_unfold (w : World) :
  sendSelection w =
    match selected_text w with
    | Some (String c rest) =>
        (Normal (),
         with_trace w
           (trace w ++ [SendToCurrentTerm (replace_line_breaks (String c rest))]))
    | _ => (Normal (), w)
    end.
Proof.
  unfold sendSelection, mbind, Eff_bind, get_world.
  by destruct (selected_text w) as [[|c rest]|].
Qed.

Lemma no_line_break_kept (query : string) (c : ascii) :
  c ∈ string_chars (string_filter keeps query) → c ≠ CR_char ∧ c ≠ LF_char.
Proof.
  intros [_ Hkeep]%string_filter_chars. unfold keeps, is_line_break in Hkeep.
  apply negb_true_iff, orb_false_iff in Hkeep as [Hcr Hlf].
  by apply bool_decide_eq_false in Hcr, Hlf.
Qed.

(** C10: 'q-term.sendSelection' hands [sendToCurrentTerm] the selected text
    with every carriage return and line feed removed and every other code
    unit kept in place, so the text sent holds no line break; with no
    active editor, or with an empty selection, nothing is sent and the
    world is left as it was. *)
Theorem sendSelection_strips_line_breaks (w : World) :
  (∀ query, selected_text w = Some query → query ≠ "" →
     sendSelection w =
       (Normal (),
        with_trace w (trace w ++ [SendToCurrentTerm (string_filter keeps query)])) ∧
     terminal_texts (added sendSelection w) = [string_filter keeps query]) ∧
  (∀ t c, t ∈ terminal_texts (added sendSelection w) → c ∈ string_chars t →
     c ≠ CR_char ∧ c ≠ LF_char) ∧
  (activeTextEditor w = None → sendSelection w = (Normal (), w)) ∧
  (∀ editor, activeTextEditor w = Some editor →
     Selection_isEmpty (selection editor) → sendSelection w = (Normal (), w)).
Proof.
  assert (∀ query, selected_text w = Some query → query ≠ "" →
     sendSelection w =
       (Normal (),
        with_trace w (trace w ++ [SendToCurrentTerm (string_filter keeps query)])))
    as Hsent.
  { intros query Hsel Hne. rewrite sendSelection_unfold, Hsel.
    destruct query as [|c rest]; [done|]. by rewrite replace_line_breaks_filter. }
  split; [|split; [|split]].
  - intros query Hsel Hne. split; [by apply Hsent|].
    erewrite added_app; [|by rewrite (Hsent query)]. done.
  - intros t c Ht Hc.
    destruct (selected_text w) as [[|c' rest]|] eqn:Hsel.
    + rewrite (added_app _ _ []) in Ht.
      * by apply elem_of_nil in Ht.
      * by rewrite sendSelection_unfold, Hsel, app_nil_r.
    + erewrite added_app in Ht; [|by rewrite (Hsent (String c' rest))].
      apply list_elem_of_singleton in Ht as ->.
      by eapply no_line_break_kept.
    + rewrite (added_app _ _ []) in Ht.
      * by apply elem_of_nil in Ht.
      * by rewrite sendSelection_unfold, Hsel, app_nil_r.
  - intros Hnone. rewrite sendSelection_unfold. unfold selected_text.
    by rewrite Hnone.
  - intros editor Hed Hempty. rewrite sendSelection_unfold. unfold selected_text.
    rewrite Hed. simpl.
    by rewrite (Selection_isEmpty_ends _ Hempty), getText_empty_range.
Qed.

(** A run of C10 on the sample world: three lines are selected and sent as
    one. *)
Lemma sendSelection_strips_line_breaks_witness :
  terminal_texts (added sendSelection sample_world) = ["{[x] x+1}"].
Proof.
  apply (proj1 (sendSelection_strips_line_breaks sample_world)
           (String "{" (String "[" (String "x" (String "]" (String LF_char
              (String " " (String "x" (String "+" (String "1" (String LF_char
                 "}"))))))))))).
  - reflexivity.
  - intros Heq. discriminate Heq.
Defined.

(** ** Regular expressions by derivatives *)

Lemma string_app_cons (c : ascii) (s t : string) :
  String c s +:+ t = String c (s +:+ t).
Proof. done. Qed.

Lemma string_app_nil_l (s : string) : "" +:+ s = s.
Proof. done. Qed.

Lemma string_app_nil_r (s : string) : s +:+ "" = s.
Proof. induction s as [|c s IH]; [done|]. by rewrite string_app_cons, IH. Qed.

Lemma string_app_assoc (s1 s2 s3 : string) :
  (s1 +:+ s2) +:+ s3 = s1 +:+ (s2 +:+ s3).
Proof. induction s1 as [|c s1 IH]; [done|]. by rewrite !string_app_cons, IH. Qed.

Lemma string_app_nil_inv (s1 s2 : string) : s1 +:+ s2 = "" → s1 = "" ∧ s2 = "".
Proof. by destruct s1. Qed.

Lemma Matches_Fail_inv (s : string) : ¬ Matches Fail s.
Proof. intros H. inversion H. Qed.

Lemma Matches_Blank_inv (s : string) : Matches Blank s → s = "".
Proof. intros H. by inversion H. Qed.

Lemma Matches_Class_inv (p : ascii → bool) (s : string) :
  Matches (Class p) s → ∃ c, s = String c "" ∧ p c = true.
Proof. intros H. inversion H; subst. eauto. Qed.

Lemma Matches_Seq_inv (r1 r2 : Regex) (s : string) :
  Matches (Seq r1 r2) s → ∃ s1 s2, s = s1 +:+ s2 ∧ Matches r1 s1 ∧ Matches r2 s2.
Proof. intros H. inversion H; subst. eauto. Qed.

Lemma Matches_Choice_inv (r1 r2 : Regex) (s : string) :
  Matches (Choice r1 r2) s → Matches r1 s ∨ Matches r2 s.
Proof. intros H. inversion H; subst; auto. Qed.

Lemma nullable_spec (r : Regex) : nullable r = true ↔ Matches r "".
Proof.
  induction r as [| |p|r1 IH1 r2 IH2|r1 IH1 r2 IH2|r IH]; simpl.
  - split; [done|]. intros H. by apply Matches_Fail_inv in H.
  - split; [constructor|done].
  - split; [done|]. intros (c & Hc & _)%Matches_Class_inv. discriminate Hc.
  - rewrite andb_true_iff, IH1, IH2. split.
    + intros [H1 H2]. apply (M_Seq _ _ "" "" H1 H2).
    + intros (s1 & s2 & Heq & H1 & H2)%Matches_Seq_inv.
      symmetry in Heq. apply string_app_nil_inv in Heq as [-> ->]. done.
  - rewrite orb_true_iff, IH1, IH2. split.
    + intros [H|H]; [by apply M_Choice_l|by apply M_Choice_r].
    + apply Matches_Choice_inv.
  - split; [constructor|done].
Qed.

(** A match of [r*] on a non-empty string starts with a non-empty match
    of [r]. *)
Lemma Matches_Many_cons_inv (r : Regex) (c : ascii) (s : string) :
  Matches (Many r) (String c s) →
  ∃ s1 s2, s = s1 +:+ s2 ∧ Matches r (String c s1) ∧ Matches (Many r) s2.
Proof.
  intros H. remember (Many r) as r' eqn:Hr. remember (String c s) as s' eqn:Hs.
  revert Hr Hs.
  induction H as [| | | | | |r0 s1 s2 H1 _ H2 IH2]; intros Hr Hs; try discriminate.
  injection Hr as ->. destruct s1 as [|c1 s1].
  - rewrite string_app_nil_l in Hs. by apply IH2.
  - rewrite string_app_cons in Hs. injection Hs as -> <-. eauto.
Qed.

Lemma derive_spec (c : ascii) (r : Regex) (s : string) :
  Matches (derive c r) s ↔ Matches r (String c s).
Proof.
  revert s. induction r as [| |p|r1 IH1 r2 IH2|r1 IH1 r2 IH2|r IH]; intros s; simpl.
  - split; intros H; by apply Matches_Fail_inv in H.
  - split; intros H; [by apply Matches_Fail_inv in H|].
    apply Matches_Blank_inv in H. discriminate H.
  - split.
    + destruct (p c) eqn:Hp; intros H; [|by apply Matches_Fail_inv in H].
      apply Matches_Blank_inv in H as ->. by constructor.
    + intros (c' & Heq & Hp)%Matches_Class_inv. injection Heq as -> ->.
      rewrite Hp. constructor.
  - split.
    + intros [H|H]%Matches_Choice_inv.
      * apply Matches_Seq_inv in H as (s1 & s2 & -> & Ha & Hb).
        apply IH1 in Ha. apply (M_Seq _ _ (String c s1) s2 Ha Hb).
      * destruct (nullable r1) eqn:Hn; [|by apply Matches_Fail_inv in H].
        apply nullable_spec in Hn. apply IH2 in H.
        apply (M_Seq _ _ "" (String c s) Hn H).
    + intros (s1 & s2 & Heq & Ha & Hb)%Matches_Seq_inv.
      destruct s1 as [|c1 s1].
      * rewrite string_app_nil_l in Heq. subst s2. apply M_Choice_r.
        apply nullable_spec in Ha. rewrite Ha. by apply IH2.
      * rewrite string_app_cons in Heq. injection Heq as <- ->. apply M_Choice_l.
        apply M_Seq; [by apply IH1|done].
  - split.
    + intros [H|H]%Matches_Choice_inv;
        [apply M_Choice_l; by apply IH1 | apply M_Choice_r; by apply IH2].
    + intros [H|H]%Matches_Choice_inv;
        [apply M_Choice_l; by apply IH1 | apply M_Choice_r; by apply IH2].
  - split.
    + intros (s1 & s2 & -> & Ha & Hb)%Matches_Seq_inv.
      apply IH in Ha. apply (M_Many_cons _ (String c s1) s2 Ha Hb).
    + intros (s1 & s2 & -> & Ha & Hb)%Matches_Many_cons_inv.
      apply M_Seq; [by apply IH|done].
Qed.

(** The derivative reader decides the match relation. *)
Lemma accepts_spec (r : Regex) (s : string) : accepts r s = true ↔ Matches r s.
Proof.
  revert r. induction s as [|c s IH]; intros r; simpl.
  - apply nullable_spec.
  - by rewrite IH, derive_spec.
Qed.

Lemma Matches_any (s : string) : Matches (Many any_unit) s.
Proof.
  induction s as [|c s IH]; [constructor|].
  by apply (M_Many_cons _ (String c "") s); [constructor|].
Qed.

Lemma Matches_Many_Class (p : ascii → bool) (s : string) :
  Matches (Many (Class p)) s ↔ string_forallb p s = true.
Proof.
  induction s as [|c s IH]; simpl.
  - split; [done|constructor].
  - rewrite andb_true_iff, <- IH. split.
    + intros (s1 & s2 & -> & Ha & Hb)%Matches_Many_cons_inv.
      apply Matches_Class_inv in Ha as (c' & Heq & Hp).
      injection Heq as -> ->. by rewrite string_app_nil_l.
    + intros [Hp Hs]. by apply (M_Many_cons _ (String c "") s); [constructor|].
Qed.

(** A pattern without [$] matches when a prefix of the text matches. *)
Lemma Matches_prefix (r : Regex) (s : string) :
  Matches (Seq r (Many any_unit)) s ↔ ∃ s1 s2, s = s1 +:+ s2 ∧ Matches r s1.
Proof.
  split.
  - intros (s1 & s2 & -> & H1 & _)%Matches_Seq_inv. eauto.
  - intros (s1 & s2 & -> & H1). apply M_Seq; [done|apply Matches_any].
Qed.

Lemma bool_eq_iff (a b : bool) : (a = true ↔ b = true) → a = b.
Proof.
  destruct a, b; intros [H1 H2]; try done.
  - symmetry. by apply H1.
  - by apply H2.
Qed.

Lemma accepts_starts_with (p : ascii → bool) (s : string) :
  accepts (Seq (Class p) (Many any_unit)) s = starts_with p s.
Proof.
  apply bool_eq_iff. rewrite accepts_spec, Matches_prefix. split.
  - intros (s1 & s2 & -> & (c & -> & Hp)%Matches_Class_inv). done.
  - destruct s as [|c s]; [done|]. simpl. intros Hp.
    exists (String c ""), s. split; [done|by constructor].
Qed.

(** The lookahead [\s+] succeeds exactly on a text that starts with a
    white space. *)
Lemma accepts_space_ahead (s : string) :
  accepts (Seq (some_of space) (Many any_unit)) s = starts_with is_whitespace s.
Proof.
  apply bool_eq_iff. rewrite accepts_spec, Matches_prefix. split.
  - intros (s1 & s2 & -> & H1). unfold some_of in H1.
    apply Matches_Seq_inv in H1 as (a & b & -> & (c & -> & Hc)%Matches_Class_inv & _).
    done.
  - destruct s as [|c s]; [done|]. simpl. intros Hc.
    exists (String c ""), s. split; [done|].
    apply (M_Seq _ _ (String c "") ""); [by constructor|constructor].
Qed.

Lemma string_forallb_app (p : ascii → bool) (s1 s2 : string) :
  string_forallb p (s1 +:+ s2) = string_forallb p s1 && string_forallb p s2.
Proof.
  induction s1 as [|c s1 IH]; [done|].
  rewrite string_app_cons. simpl. by rewrite IH, andb_assoc.
Qed.

Lemma string_existsb_app (p : ascii → bool) (s1 s2 : string) :
  string_existsb p (s1 +:+ s2) = string_existsb p s1 || string_existsb p s2.
Proof.
  induction s1 as [|c s1 IH]; [done|].
  rewrite string_app_cons. simpl. by rewrite IH, orb_assoc.
Qed.

(** A string that satisfies [p] somewhere splits at such a code unit. *)
Lemma string_existsb_split (p : ascii → bool) (s : string) :
  string_existsb p s = true → ∃ a c b, s = a +:+ String c b ∧ p c = true.
Proof.
  induction s as [|c s IH]; [done|]. simpl. intros [Hc|Hs]%orb_true_iff.
  - by exists "", c, s.
  - destruct (IH Hs) as (a & c' & b & -> & Hc'). by exists (String c a), c', b.
Qed.

Lemma opening_keeps (c : ascii) : is_opening c = true → keeps c = true.
Proof.
  unfold is_opening. intros Hc%bool_decide_eq_true.
  set_unfold in Hc. destruct Hc as [->|[->|[->|[]]]]; reflexivity.
Qed.

Lemma closing_not_whitespace (c : ascii) : is_closing c = true → is_whitespace c = false.
Proof.
  unfold is_closing. intros Hc%bool_decide_eq_true.
  set_unfold in Hc. destruct Hc as [->|[->|[->|[]]]]; reflexivity.
Qed.

(** The four patterns, read in plain terms. *)
Lemma test_close_bracket_after (s : string) :
  test close_bracket_after s = starts_with is_closing s.
Proof. unfold test. simpl. apply accepts_starts_with. Qed.

Lemma test_open_bracket_before (s : string) :
  test open_bracket_before s = has_open_bracket s.
Proof.
  unfold test, has_open_bracket. simpl not_ahead. simpl to_end. simpl body. cbv iota.
  rewrite accepts_space_ahead, <- andb_assoc. f_equal.
  apply bool_eq_iff. rewrite accepts_spec, andb_true_iff. split.
  - intros (a & s2 & -> & Ha & H2)%Matches_Seq_inv.
    apply Matches_Seq_inv in H2 as (s3 & b & -> & (c & -> & Hc)%Matches_Class_inv & Hb).
    apply Matches_Many_Class in Ha, Hb. unfold single_line.
    rewrite !string_forallb_app, !string_existsb_app. simpl.
    fold keeps in Ha, Hb. rewrite Ha, Hb, Hc, (opening_keeps c Hc).
    by rewrite orb_true_r.
  - intros [Hline (a & c & b & -> & Hc)%string_existsb_split].
    unfold single_line in Hline. rewrite string_forallb_app in Hline. simpl in Hline.
    apply andb_true_iff in Hline as [Ha [_ Hb]%andb_true_iff].
    apply M_Seq; [by apply Matches_Many_Class|].
    apply (M_Seq _ _ (String c "") b); [by constructor|by apply Matches_Many_Class].
Qed.

Lemma test_indented_close_bracket (s : string) :
  test indented_close_bracket s = is_indented_close s.
Proof.
  unfold test. simpl not_ahead. simpl to_end. simpl body. cbv iota. simpl andb.
  apply bool_eq_iff. rewrite accepts_spec. split.
  - intros (s1 & s2 & -> & (w & -> & Hw)%Matches_Class_inv & H2)%Matches_Seq_inv.
    apply Matches_Seq_inv in H2 as (s3 & s4 & -> & (b & -> & Hb)%Matches_Class_inv & H4).
    rewrite !string_app_cons, !string_app_nil_l. simpl. rewrite Hw, Hb. simpl.
    apply Matches_Choice_inv in H4 as [(c & -> & Hc)%Matches_Class_inv| ->%Matches_Blank_inv].
    + apply bool_decide_eq_true in Hc as ->. reflexivity.
    + reflexivity.
  - destruct s as [|w [|b rest]]; try done. simpl.
    intros [[Hw Hb]%andb_true_iff Hrest]%andb_true_iff.
    apply (M_Seq _ _ (String w "") (String b rest)); [by constructor|].
    apply (M_Seq _ _ (String b "") rest); [by constructor|].
    apply orb_true_iff in Hrest as [->%bool_decide_eq_true| ->%bool_decide_eq_true].
    + apply M_Choice_r. constructor.
    + apply M_Choice_l. constructor. by apply bool_decide_eq_true.
Qed.

Lemma test_comment_line (s : string) : test comment_line s = is_comment_line s.
Proof.
  unfold test. simpl not_ahead. simpl to_end. simpl body. cbv iota. simpl andb.
  apply bool_eq_iff. rewrite accepts_spec. split.
  - intros (s1 & s2 & -> & (c & -> & Hc)%Matches_Class_inv & H2)%Matches_Seq_inv.
    apply Matches_Many_Class in H2. rewrite string_app_cons, string_app_nil_l.
    simpl. by rewrite Hc.
  - destruct s as [|c rest]; [done|]. simpl. intros [Hc Hrest]%andb_true_iff.
    apply (M_Seq _ _ (String c "") rest); [by constructor|].
    by apply Matches_Many_Class.
Qed.

(** The table of the rules in plain terms. *)
Lemma onEnter_table (before after : string) :
  onEnter before after =
    if has_open_bracket before && starts_with is_closing after then
      Some newline_and_space
    else if is_indented_close before then Some outdent
    else if is_comment_line before then Some continue_comment
    else None.
Proof.
  unfold onEnter, onEnterRules.
  rewrite !filter_cons, filter_nil. unfold rule_applies. simpl beforeText.
  simpl afterText. simpl from_option.
  rewrite test_open_bracket_before, test_close_bracket_after,
    test_indented_close_bracket, test_comment_line, !andb_true_r.
  destruct (has_open_bracket before && starts_with is_closing after); [done|].
  destruct (is_indented_close before); [done|].
  by destruct (is_comment_line before).
Qed.

(** ** The on-enter rules *)

Lemma indented_close_no_open_bracket (s : string) :
  is_indented_close s = true → has_open_bracket s = false.
Proof.
  destruct s as [|w [|b rest]]; try done. simpl.
  intros [[Hw _]%andb_true_iff _]%andb_true_iff.
  unfold has_open_bracket. simpl. by rewrite Hw.
Qed.

Lemma is_indented_close_spec (s : string) :
  is_indented_close s = true ↔
  ∃ w b, is_whitespace w = true ∧ is_closing b = true ∧
         (s = String w (String b "") ∨ s = String w (String b ";")).
Proof.
  split.
  - destruct s as [|w [|b rest]]; try done. simpl.
    intros [[Hw Hb]%andb_true_iff Hrest]%andb_true_iff.
    exists w, b. repeat split; [done..|].
    apply orb_true_iff in Hrest as [->%bool_decide_eq_true| ->%bool_decide_eq_true];
      auto.
  - intros (w & b & Hw & Hb & [-> | ->]); simpl; by rewrite Hw, Hb.
Qed.

(** X1: Enter outdents exactly when the text before the cursor is one white
    space, a closing bracket and at most a semicolon; the text after the
    cursor plays no role and no other rule takes precedence. *)
Theorem onEnter_outdents_after_indented_bracket (before after : string) :
  onEnter before after = Some outdent ↔
  ∃ w b, is_whitespace w = true ∧ is_closing b = true ∧
         (before = String w (String b "") ∨ before = String w (String b ";")).
Proof.
  rewrite <- is_indented_close_spec, onEnter_table.
  destruct (is_indented_close before) eqn:Hclose.
  - rewrite (indented_close_no_open_bracket _ Hclose). simpl. done.
  - destruct (has_open_bracket before && starts_with is_closing after);
      [done|]. by destruct (is_comment_line before).
Qed.

(** X2: Enter appends a line break and a space exactly when the text
    before the cursor does not start with white space, holds no line break
    and holds an opening bracket, and the text after the cursor starts with
    a closing bracket. *)
Theorem onEnter_between_brackets (before after : string) :
  onEnter before after = Some newline_and_space ↔
  starts_with is_whitespace before = false ∧
  single_line before = true ∧
  (∃ a c b, before = a +:+ String c b ∧ is_opening c = true) ∧
  (∃ c rest, after = String c rest ∧ is_closing c = true).
Proof.
  rewrite onEnter_table. unfold has_open_bracket.
  assert (starts_with is_closing after = true ↔
          ∃ c rest, after = String c rest ∧ is_closing c = true) as Hafter.
  { destruct after as [|c rest]; simpl.
    - split; [done|]. by intros (? & ? & ? & _).
    - split; [eauto|]. by intros (? & ? & [= <- <-] & ?). }
  assert (string_existsb is_opening before = true ↔
          ∃ a c b, before = a +:+ String c b ∧ is_opening c = true) as Hopen.
  { split; [apply string_existsb_split|].
    intros (a & c & b & -> & Hc). rewrite string_existsb_app. simpl.
    by rewrite Hc, orb_true_r. }
  rewrite <- Hafter, <- Hopen.
  destruct (starts_with is_whitespace before), (single_line before),
    (string_existsb is_opening before), (starts_with is_closing after); simpl;
    try (split; [done|by intros (? & ? & ? & ?)]);
    try (destruct (is_indented_close before), (is_comment_line before);
         split; (done || by intros (? & ? & ? & ?))).
Qed.

(** X3: Enter continues a comment ("/ " is appended) exactly when the text
    before the cursor is a slash followed by no line break, unless that text
    holds an opening bracket and the text after the cursor starts with a
    closing bracket: the first rule then takes precedence. *)
Theorem onEnter_continues_comment (before after : string) :
  onEnter before after = Some continue_comment ↔
  is_comment_line before = true ∧
  ¬ (string_existsb is_opening before = true ∧ starts_with is_closing after = true).
Proof.
  rewrite onEnter_table. unfold has_open_bracket.
  destruct (is_comment_line before) eqn:Hcomment.
  - assert (starts_with is_whitespace before = false ∧ single_line before = true
            ∧ is_indented_close before = false) as (Hws & Hline & Hclose).
    { destruct before as [|c rest]; [done|]. simpl in Hcomment.
      apply andb_true_iff in Hcomment as [->%bool_decide_eq_true Hrest].
      split; [done|]. split.
      - unfold single_line in *. simpl. by rewrite Hrest.
      - by destruct rest. }
    rewrite Hws, Hline, Hclose. simpl.
    destruct (string_existsb is_opening before), (starts_with is_closing after);
      simpl; split; intros H; try done;
      try (split; [done|intros [? ?]; done]);
      try (destruct H as [_ Hn]; destruct Hn; done).
  - split; [|by intros [? _]].
    destruct (_ && starts_with is_closing after); [done|].
    by destruct (is_indented_close before).
Qed.

(** X4: a line that begins with a closing bracket -- a line the formatter
    puts a space in front of -- does not make Enter outdent as it stands;
    with the space in front it does, when the line is the bracket alone or
    the bracket and a semicolon. *)
Theorem formatted_bracket_line_outdents (t after : string) :
  matches_closing_bracket t = true →
  onEnter t after ≠ Some outdent ∧
  ((∃ b, t = String b "" ∨ t = String b ";") →
     onEnter (" " +:+ t) after = Some outdent).
Proof.
  intros Hbracket. split.
  - rewrite onEnter_table.
    assert (is_indented_close t = false) as ->.
    { destruct t as [|c [|b rest]]; try done. simpl in *.
      apply bool_decide_eq_true in Hbracket.
      assert (is_whitespace c = false) as ->; [|done].
      apply closing_not_whitespace. unfold is_closing. apply bool_decide_eq_true.
      set_unfold. set_unfold in Hbracket. tauto. }
    destruct (_ && starts_with is_closing after); [done|].
    by destruct (is_comment_line t).
  - intros [b Hb]. rewrite onEnter_table.
    assert (is_closing b = true) as Hclosing.
    { destruct Hb as [-> | ->]; simpl in Hbracket;
        apply bool_decide_eq_true in Hbracket; unfold is_closing;
        apply bool_decide_eq_true; set_unfold; set_unfold in Hbracket; tauto. }
    assert (is_indented_close (" " +:+ t) = true) as Hclose.
    { destruct Hb as [-> | ->]; simpl; by rewrite Hclosing. }
    by rewrite (indented_close_no_open_bracket _ Hclose), Hclose.
Qed.

(** A run of X4: the closing brace of a function. *)
Lemma formatted_bracket_line_outdents_witness :
  onEnter "}" "" ≠ Some outdent ∧ onEnter " }" "" = Some outdent.
Proof.
  destruct (formatted_bracket_line_outdents "}" "") as [Hbefore Hafter].
  - reflexivity.
  - split; [exact Hbefore|]. apply Hafter. exists "}"%char. by left.
Defined.

(** ** More on the formatter *)

Lemma closing_lineb_bracket (t : string) :
  closing_lineb t = matches_closing_bracket t.
Proof.
  unfold closing_lineb. destruct (matches_closing_bracket t) eqn:Hm.
  - by rewrite (closing_bracket_not_blank _ Hm).
  - apply andb_false_r.
Qed.

Lemma provideDocumentFormattingEdits_expected (document : TextDocument) :
  provideDocumentFormattingEdits document = Normal (expected_edits document).
Proof. unfold provideDocumentFormattingEdits. by rewrite format_lines_from. Qed.

(** X5: the white space test of the loop never decides anything: the
    formatter returns one insertion for each line whose first code unit is a
    closing bracket, as a loop with the bracket test alone would. *)
Theorem formatter_blank_test_is_redundant (document : TextDocument) :
  provideDocumentFormattingEdits document = Normal (bracket_first_edits document).
Proof.
  rewrite provideDocumentFormattingEdits_expected. f_equal.
  unfold expected_edits, bracket_first_edits. f_equal.
  apply list_filter_iff. intros i.
  destruct (lines document !! i) as [t|]; simpl; [|done].
  by rewrite closing_lineb_bracket.
Qed.

Lemma edit_line_indent_edit (i : nat) : edit_line (indent_edit i) = i.
Proof. done. Qed.

Lemma StronglySorted_filter_seq (P : nat → Prop) `{∀ i, Decision (P i)} (i n : nat) :
  StronglySorted lt (filter P (seq i n)).
Proof.
  revert i. induction n as [|n IH]; intros i; simpl; [constructor|].
  rewrite filter_cons. case_decide; [|apply IH].
  constructor; [apply IH|].
  apply Forall_forall. intros j [_ Hj%elem_of_seq]%list_elem_of_filter. lia.
Qed.

(** X6: the edits come in strictly increasing line order, so no two of them
    touch the same place; each is the insertion of one space at column 0 of
    a line of the document, and there are at most as many as lines. *)
Theorem formatter_edits_are_ordered (document : TextDocument) :
  ∃ edits, provideDocumentFormattingEdits document = Normal edits ∧
    StronglySorted lt (edit_line <$> edits) ∧
    Forall (λ e, e = TextEdit_insert {| line := edit_line e; character := 0 |} " " ∧
                 edit_line e < lineCount document) edits ∧
    (length edits ≤ lineCount document)%nat.
Proof.
  exists (expected_edits document).
  split; [apply provideDocumentFormattingEdits_expected|].
  unfold expected_edits.
  set (P := λ i, Is_true (from_option closing_lineb false (lines document !! i))).
  split; [|split].
  - rewrite <- list_fmap_compose.
    replace (edit_line ∘ indent_edit <$> filter P (seq 0 (lineCount document)))
      with (filter P (seq 0 (lineCount document))).
    + apply (StronglySorted_filter_seq P).
    + induction (filter P (seq 0 (lineCount document))) as [|j js IH]; [done|].
      rewrite fmap_cons. by f_equal.
  - apply Forall_fmap, Forall_forall.
    intros i [_ Hi%elem_of_seq]%list_elem_of_filter. simpl. split; [done|].
    rewrite edit_line_indent_edit. lia.
  - rewrite length_fmap.
    etransitivity; [apply length_filter|]. by rewrite length_seq.
Qed.

Lemma apply_insertion_indent_edit (i : nat) (ls : list string) :
  apply_insertion (indent_edit i) ls = alter (λ t, " " +:+ t) i ls.
Proof.
  unfold apply_insertion. simpl. apply list_alter_ext; [|done].
  intros t _. by destruct t.
Qed.

(** Insertions on different lines: each of these lines gets its space, the
    others stay. *)
Lemma apply_indent_edits (js : list nat) (ls : list string) (i : nat) :
  NoDup js →
  foldr apply_insertion ls (indent_edit <$> js) !! i =
    if decide (i ∈ js) then (λ t, " " +:+ t) <$> ls !! i else ls !! i.
Proof.
  induction js as [|j js IH]; intros Hnodup.
  - simpl. destruct (decide (i ∈ [])) as [Hi|_]; [|done].
    by apply elem_of_nil in Hi.
  - apply NoDup_cons in Hnodup as [Hj Hnodup].
    rewrite fmap_cons. simpl foldr. rewrite apply_insertion_indent_edit.
    destruct (decide (i = j)) as [->|Hne].
    + rewrite list_lookup_alter_eq, IH by done.
      destruct (decide (j ∈ js)); [done|].
      destruct (decide (j ∈ j :: js)) as [_|Hn]; [done|].
      destruct Hn. left.
    + rewrite list_lookup_alter_ne by done. rewrite IH by done.
      destruct (decide (i ∈ js)) as [Hi|Hi];
        destruct (decide (i ∈ j :: js)) as [Hi'|Hi']; try done.
      * destruct Hi'. by right.
      * apply elem_of_cons in Hi' as [?|?]; done.
Qed.

Lemma apply_insertions_length (edits : list TextEdit) (ls : list string) :
  length (foldr apply_insertion ls edits) = length ls.
Proof.
  induction edits as [|e edits IH]; [done|]. simpl.
  unfold apply_insertion at 1. by rewrite length_alter.
Qed.

Lemma formatted_lines (document : TextDocument) (i : nat) :
  lines (apply_insertions (expected_edits document) document) !! i =
    formatted_line <$> lines document !! i.
Proof.
  unfold apply_insertions, expected_edits. simpl.
  rewrite apply_indent_edits by apply NoDup_filter, NoDup_seq.
  unfold formatted_line.
  destruct (lines document !! i) as [t|] eqn:Ht; simpl.
  - rewrite <- closing_lineb_bracket.
    destruct (closing_lineb t) eqn:Hc.
    + rewrite decide_True; [done|]. apply list_elem_of_filter. split.
      * rewrite Ht. simpl. by rewrite Hc.
      * apply elem_of_seq. apply lookup_lt_Some in Ht. unfold lineCount. lia.
    + rewrite decide_False; [done|]. intros [Hp _]%list_elem_of_filter.
      rewrite Ht in Hp. simpl in Hp. by rewrite Hc in Hp.
  - by destruct (decide _).
Qed.

Lemma filter_none {A} (P : A → Prop) `{∀ x, Decision (P x)} (l : list A) :
  (∀ x, ¬ P x) → filter P l = [].
Proof.
  intros Hnone. induction l as [|x l IH]; [done|].
  by rewrite filter_cons_False.
Qed.

Lemma formatted_line_no_bracket (t : string) :
  matches_closing_bracket (formatted_line t) = false.
Proof.
  unfold formatted_line. by destruct (matches_closing_bracket t) eqn:Hm.
Qed.

(** X7: formatting is idempotent. Once the editor has applied the edits,
    every line that began with a closing bracket has one space in front,
    every other line is as it was, the number of lines is the same, and a
    second formatting request returns no edit. *)
Theorem formatter_is_idempotent (document : TextDocument) :
  ∃ edits, provideDocumentFormattingEdits document = Normal edits ∧
    let formatted := apply_insertions edits document in
    lineCount formatted = lineCount document ∧
    (∀ i, lines formatted !! i = formatted_line <$> lines document !! i) ∧
    provideDocumentFormattingEdits formatted = Normal [].
Proof.
  exists (expected_edits document).
  split; [apply provideDocumentFormattingEdits_expected|]. simpl.
  split; [|split].
  - unfold lineCount, apply_insertions. simpl. apply apply_insertions_length.
  - apply formatted_lines.
  - rewrite provideDocumentFormattingEdits_expected. f_equal.
    unfold expected_edits at 1. rewrite filter_none; [done|].
    intros i. rewrite formatted_lines.
    destruct (lines document !! i) as [t|]; simpl; [|tauto].
    rewrite closing_lineb_bracket, formatted_line_no_bracket. simpl. tauto.
Qed.

(** ** More on the removal of line breaks *)

Lemma string_filter_app (p : ascii → bool) (s1 s2 : string) :
  string_filter p (s1 +:+ s2) = string_filter p s1 +:+ string_filter p s2.
Proof.
  induction s1 as [|c s1 IH]; [done|].
  rewrite string_app_cons. simpl. destruct (p c); [|done].
  by rewrite string_app_cons, IH.
Qed.

Lemma string_filter_length (p : ascii → bool) (s : string) :
  (String.length (string_filter p s) ≤ String.length s)%nat.
Proof.
  induction s as [|c s IH]; [done|]. simpl. destruct (p c); simpl; lia.
Qed.

Lemma string_filter_fixed (p : ascii → bool) (s : string) :
  string_filter p s = s ↔ string_forallb p s = true.
Proof.
  induction s as [|c s IH]; [done|]. simpl. destruct (p c) eqn:Hp; simpl.
  - rewrite <- IH. split; [by intros [= ?]|by intros ->].
  - split; [|done]. intros Heq.
    pose proof (string_filter_length p s) as Hlen.
    rewrite Heq in Hlen. simpl in Hlen. lia.
Qed.

Lemma string_filter_forallb (p : ascii → bool) (s : string) :
  string_forallb p (string_filter p s) = true.
Proof.
  induction s as [|c s IH]; [done|]. simpl. destruct (p c) eqn:Hp; [|done].
  simpl. by rewrite Hp.
Qed.

(** X8: a text without carriage return and line feed goes through the
    replacement unchanged, and only such a text does; the replacement never
    makes a text longer, and replacing twice is replacing once. *)
Theorem replace_line_breaks_fixed_points (query : string) :
  (replace_line_breaks query = query ↔ single_line query = true) ∧
  single_line (replace_line_breaks query) = true ∧
  replace_line_breaks (replace_line_breaks query) = replace_line_breaks query ∧
  (String.length (replace_line_breaks query) ≤ String.length query)%nat.
Proof.
  rewrite !replace_line_breaks_filter. unfold single_line.
  split; [apply string_filter_fixed|].
  split; [apply string_filter_forallb|].
  split; [|apply string_filter_length].
  apply string_filter_fixed, string_filter_forallb.
Qed.

(** X9: the replacement works piece by piece: the replacement of a
    concatenation is the concatenation of the replacements, also when a
    carriage return ends the first piece and a line feed starts the
    second. *)
Theorem replace_line_breaks_app (s1 s2 : string) :
  replace_line_breaks (s1 +:+ s2) = replace_line_breaks s1 +:+ replace_line_breaks s2.
Proof. rewrite !replace_line_breaks_filter. apply string_filter_app. Qed.

(** ** Selections over several lines *)

Lemma isBefore_asym (a b : Position) : isBefore a b = true → isBefore b a = false.
Proof.
  unfold isBefore. intros H.
  apply orb_true_iff in H as [H|[H1 H2]%andb_true_iff].
  - apply bool_decide_eq_true in H.
    rewrite (bool_decide_eq_false_2 (line b < line a)) by lia.
    rewrite (bool_decide_eq_false_2 (line b = line a)) by lia. done.
  - apply bool_decide_eq_true in H1, H2.
    rewrite (bool_decide_eq_false_2 (line b < line a)) by lia.
    rewrite (bool_decide_eq_false_2 (character b < character a)) by lia.
    apply andb_false_r.
Qed.

(** The range built from the ends of a selection has them in that order. *)
Lemma new_Range_selection (s : Selection) :
  new_Range (Selection_start s) (Selection_end s) =
    {| start := Selection_start s; end_ := Selection_end s |}.
Proof.
  unfold new_Range, Selection_start, Selection_end.
  destruct (isBefore (active s) (anchor s)) eqn:Hba.
  - by rewrite (isBefore_asym _ _ Hba).
  - by rewrite Hba.
Qed.

Lemma single_line_drop (n : nat) (s : string) :
  single_line s = true → single_line (string_drop n s) = true.
Proof.
  unfold single_line. revert n. induction s as [|c s IH]; intros [|n]; try done.
  simpl. intros [_ Hs]%andb_true_iff. by apply IH.
Qed.

Lemma single_line_take (n : nat) (s : string) :
  single_line s = true → single_line (string_take n s) = true.
Proof.
  unfold single_line. revert n. induction s as [|c s IH]; intros [|n]; try done.
  simpl. intros [Hc Hs]%andb_true_iff. by rewrite Hc, IH.
Qed.








(** ** One call on the manager at most *)

Lemma manager_calls_app (es1 es2 : list Effect) :
  manager_calls (es1 ++ es2) = manager_calls es1 ++ manager_calls es2.
Proof. apply omap_app. Qed.

Lemma quiet_ret {A} (a : A) : quiet (mret a : Eff A).
Proof. intros w. split; [done|]. exists []. by rewrite app_nil_r. Qed.

Lemma quiet_get_world : quiet get_world.
Proof. intros w. split; [done|]. exists []. by rewrite app_nil_r. Qed.

Lemma quiet_lift {A} (c : Completion A) : quiet (lift_completion c).
Proof. intros w. split; [done|]. exists []. by rewrite app_nil_r. Qed.

Lemma quiet_log (e : Effect) : manager_calls [e] = [] → quiet (log e).
Proof. intros He w. split; [done|]. by exists [e]. Qed.

Lemma quiet_bind {A B} (c : Eff A) (k : A → Eff B) :
  quiet c → (∀ a, quiet (k a)) → quiet (c ≫= k).
Proof.
  intros Hc Hk w. unfold mbind, Eff_bind.
  destruct (Hc w) as (Hm & es & Hes & Hcalls).
  destruct (c w) as [[a|e] w'] eqn:Hcw; simpl in *.
  - destruct (Hk a w') as (Hm' & es' & Hes' & Hcalls').
    split; [congruence|]. exists (es ++ es'). split.
    + by rewrite Hes', Hes, app_assoc.
    + by rewrite manager_calls_app, Hcalls, Hcalls'.
  - split; [done|]. by exists es.
Qed.






Ltac quiet_step :=
  match goal with
  | |- quiet (_ ≫= _) => apply quiet_bind; [|intros ?]
  | |- quiet (if ?b then _ else _) => destruct b
  | |- quiet (match ?x with _ => _ end) => destruct x
  | |- quiet (log _) => apply quiet_log; reflexivity
  | |- quiet (sendNotification _ _) => apply quiet_log; reflexivity
  | |- quiet (sendToCurrentTerm _) => apply quiet_log; reflexivity
  | |- quiet skip => apply quiet_ret
  | |- quiet (mret _) => apply quiet_ret
  | |- quiet get_world => apply quiet_get_world
  | |- quiet (lift_completion _) => apply quiet_lift
  end.




(** ** Before the manager exists *)

Lemma quiet_without_singleton_quiet {A} (c : Eff A) :
  quiet c → quiet_without_singleton c.
Proof. intros Hc w _. apply Hc. Qed.

Lemma quiet_without_singleton_bind {A B} (c : Eff A) (k : A → Eff B) :
  quiet_without_singleton c → (∀ a, quiet_without_singleton (k a)) →
  quiet_without_singleton (c ≫= k).
Proof.
  intros Hc Hk w Hnone. unfold mbind, Eff_bind.
  destruct (Hc w Hnone) as (Hm & es & Hes & Hcalls).
  destruct (c w) as [[a|e] w'] eqn:Hcw; simpl in Hm, Hes |- *.
  - destruct (Hk a w') as (Hm' & es' & Hes' & Hcalls'); [by rewrite Hm|].
    split; [congruence|]. exists (es ++ es'). split.
    + by rewrite Hes', Hes, app_assoc.
    + by rewrite manager_calls_app, Hcalls, Hcalls'.
  - split; [done|]. by exists es.
Qed.

Lemma quiet_without_singleton_call (impl : ManagerImpl) (m : ManagerMethod) :
  quiet_without_singleton (call_current impl m).
Proof.
  intros w Hnone. rewrite call_current_none by done.
  split; [done|]. exists []. by rewrite app_nil_r.
Qed.

Ltac no_singleton_step :=
  match goal with
  | |- quiet_without_singleton (call_current _ _) =>
      apply quiet_without_singleton_call
  | |- quiet_without_singleton (_ ≫= _) =>
      apply quiet_without_singleton_bind; [|intros ?]
  | |- quiet_without_singleton (if ?b then _ else _) => destruct b
  | |- quiet_without_singleton (match ?x with _ => _ end) => destruct x
  | |- quiet_without_singleton _ =>
      apply quiet_without_singleton_quiet; repeat quiet_step
  end.

Lemma handle_quiet_without_singleton (impl : ManagerImpl) (i : Invocation) :
  (∀ mode, i ≠ Cmd_switchMode mode) → quiet_without_singleton (handle impl i).
Proof.
  intros Hnot. destruct i; try (by destruct (Hnot mode)); simpl;
    unfold refreshEntry, addEntry, editEntry, deleteEntry, reactions, connectEntry,
      connect, tagEntry, toggleLimitQuery_command, abortQuery,
      exportServers, importServers, explorer_refreshEntry, preview, click, rerun,
      queryCurrentLine, querySelection, sendCurrentLine, sendSelection,
      terminal_run, sendServerCache, onDidChangeConfiguration, onReady,
      deserializeWebviewPanel, current_line_text;
    repeat no_singleton_step.
Qed.

(** X12: as long as no manager singleton exists, every command other than
    'q-client.switchMode' -- and the configuration listener, the ready
    continuation and the panel serializer -- makes no call on the manager
    and leaves its state as it is: the optional calls fall through. *)
Theorem handlers_idle_without_singleton
    (impl : ManagerImpl) (i : Invocation) (w : World) :
  current (manager w) = None →
  (∀ mode, i ≠ Cmd_switchMode mode) →
  manager_calls (added (handle impl i) w) = [] ∧
  manager (handle impl i w).2 = manager w.
Proof.
  intros Hnone Hnot.
  destruct (handle_quiet_without_singleton impl i Hnot w Hnone)
    as (Hm & es & Hes & Hcalls).
  by rewrite (added_app _ _ _ Hes).
Qed.

(** A run of X12: rerunning a history record before the manager exists. *)
Lemma handlers_idle_without_singleton_witness :
  manager_calls
    (added (handle reporting_manager
              (Cmd_rerun {| History.uniqLabel := "dev,dev1"; History.query := "1+1" |}))
           world_without_manager) = [] ∧
  manager (handle reporting_manager
             (Cmd_rerun {| History.uniqLabel := "dev,dev1"; History.query := "1+1" |})
             world_without_manager).2 = manager world_without_manager.
Proof.
  apply (handlers_idle_without_singleton reporting_manager
           (Cmd_rerun {| History.uniqLabel := "dev,dev1"; History.query := "1+1" |})
           world_without_manager).
  - reflexivity.
  - intros mode Heq. discriminate Heq.
Defined.

(** ** Writing to the terminal *)


Lemma sendCurrentLine_unfold (w : World) :
  sendCurrentLine w =
    match activeTextEditor w with
    | None => (Normal (), w)
    | Some editor =>
        match lines (document editor) !! line (active (selection editor)) with
        | None => (Throw (JString "Illegal value for `line`"), w)
        | Some (String c rest) =>
            (Normal (),
             with_trace w (trace w ++ [SendToCurrentTerm (String c rest)]))
        | Some EmptyString => (Normal (), w)
        end
    end.
Proof.
  unfold sendCurrentLine, current_line_text, lineAt, mbind, Eff_bind, get_world,
    lift_completion.
  destruct (activeTextEditor w) as [editor|]; [|done].
  by destruct (lines (document editor) !! _) as [[|c rest]|].
Qed.


(** ** Handlers do not throw on their own *)








Lemma queryCurrentLine_unfold (impl : ManagerImpl) (w : World) :
  queryCurrentLine impl w =
    match activeTextEditor w with
    | None => (Normal (), w)
    | Some editor =>
        match lines (document editor) !! line (active (selection editor)) with
        | None => (Throw (JString "Illegal value for `line`"), w)
        | Some (String c rest) => call_current impl (Sync (String c rest)) w
        | Some EmptyString => (Normal (), w)
        end
    end.
Proof.
  unfold queryCurrentLine, current_line_text, lineAt, mbind, Eff_bind, get_world,
    lift_completion.
  destruct (activeTextEditor w) as [editor|]; [|done].
  by destruct (lines (document editor) !! _) as [[|c rest]|].
Qed.



(** X15: the two commands on the current line. With the cursor on a
    non-empty line, 'q-term.sendCurrentLine' sends that line as it is and
    'q-client.queryCurrentLine' is the call [sync] of that line on the
    manager; on an empty line both do nothing; with a cursor beyond the
    last line both throw, as [lineAt] does, and nothing is sent or called. *)
Theorem current_line_commands
    (impl : ManagerImpl) (w : World) (editor : TextEditor) :
  activeTextEditor w = Some editor →
  (∀ t, lines (document editor) !! line (active (selection editor)) = Some t →
     t ≠ "" →
     sendCurrentLine w =
       (Normal (), with_trace w (trace w ++ [SendToCurrentTerm t])) ∧
     queryCurrentLine impl w = call_current impl (Sync t) w) ∧
  (lines (document editor) !! line (active (selection editor)) = Some "" →
     sendCurrentLine w = (Normal (), w) ∧ queryCurrentLine impl w = (Normal (), w)) ∧
  ((lineCount (document editor) ≤ line (active (selection editor)))%nat →
     sendCurrentLine w = (Throw (JString "Illegal value for `line`"), w) ∧
     queryCurrentLine impl w = (Throw (JString "Illegal value for `line`"), w)).
Proof.
  intros Hed. rewrite sendCurrentLine_unfold, queryCurrentLine_unfold, Hed.
  split; [|split].
  - intros t -> Hne. by destruct t.
  - by intros ->.
  - intros Hbeyond. by rewrite (lookup_ge_None_2 _ _ Hbeyond).
Qed.

(** A run of X15: the cursor of the sample editor is on the line "}". *)
Lemma current_line_commands_witness :
  sendCurrentLine sample_world =
    (Normal (), with_trace sample_world [SendToCurrentTerm "}"]) ∧
  queryCurrentLine reporting_manager sample_world =
    call_current reporting_manager (Sync "}") sample_world.
Proof.
  apply (proj1 (current_line_commands reporting_manager sample_world sample_editor
                  eq_refl) "}").
  - reflexivity.
  - intros Heq. discriminate Heq.
Defined.

(** ** Query and terminal on the same selection *)

Lemma querySelection_unfold (impl : ManagerImpl) (w : World) :
  querySelection impl w =
    match selected_text w with
    | Some (String c rest) => call_current impl (Sync (String c rest)) w
    | _ => (Normal (), w)
    end.
Proof.
  unfold querySelection, mbind, Eff_bind, get_world.
  by destruct (selected_text w) as [[|c rest]|].
Qed.

(** X16: on one and the same selection, 'q-client.querySelection' hands the
    manager the selected text as it is, line breaks included, while
    'q-term.sendSelection' hands the terminal that text without its line
    breaks; on an empty selection, or without an editor, neither does
    anything. *)
Theorem selection_commands_agree
    (impl : ManagerImpl) (w : World) (m : QConnManager) :
  current (manager w) = Some m →
  (∀ query, selected_text w = Some query → query ≠ "" →
     manager_calls (added (querySelection impl) w) = [Sync query] ∧
     terminal_texts (added sendSelection w) = [replace_line_breaks query]) ∧
  (selected_text w = None ∨ selected_text w = Some "" →
     querySelection impl w = (Normal (), w) ∧ sendSelection w = (Normal (), w)).
Proof.
  intros Hcur. split.
  - intros query Hsel Hne. destruct query as [|c rest]; [done|]. split.
    + unfold added. rewrite querySelection_unfold, Hsel.
      erewrite call_current_some by done. apply call_manager_calls.
    + erewrite added_app; [|by rewrite sendSelection_unfold, Hsel]. done.
  - intros Hempty. rewrite querySelection_unfold, sendSelection_unfold.
    by destruct Hempty as [-> | ->].
Qed.

(** A run of X16 on the sample world. *)
Lemma selection_commands_agree_witness :
  manager_calls (added (querySelection reporting_manager) sample_world) =
    [Sync (String "{" (String "[" (String "x" (String "]" (String LF_char
             (String " " (String "x" (String "+" (String "1" (String LF_char
                "}"))))))))))] ∧
  terminal_texts (added sendSelection sample_world) = ["{[x] x+1}"].
Proof.
  apply (proj1 (selection_commands_agree reporting_manager sample_world
                  manager_on_dev1 eq_refl)).
  - reflexivity.
  - intros Heq. discriminate Heq.
Defined.

(** ** Tags, connections, reactions *)

(** X17: 'q-client.tagEntry' stores the entry with the answer of the prompt
    as its tags and its labels as they were; when the prompt is dismissed
    the entry is stored all the same, with empty tags. *)
Theorem tagEntry_stores_answer
    (impl : ManagerImpl) (qConn : QConn.t) (answer : option string) (w : World)
    (m : QConnManager) :
  current (manager w) = Some m →
  ∃ stored, manager_calls (added (tagEntry impl qConn answer) w) = [AddCfg stored] ∧
    QConn.label stored = QConn.label qConn ∧
    QConn.uniqLabel stored = QConn.uniqLabel qConn ∧
    QConn.tags stored = match answer with Some tags => tags | None => "" end.
Proof.
  intros Hcur.
  exists {| QConn.label := QConn.label qConn;
            QConn.uniqLabel := QConn.uniqLabel qConn;
            QConn.tags := default "" answer |}.
  split; [|by destruct answer].
  erewrite added_app; last first.
  { unfold tagEntry, mbind, Eff_bind, log. simpl.
    erewrite call_current_some by done.
    rewrite call_manager_trace. simpl. by rewrite <- app_assoc. }
  unfold manager_calls. simpl. f_equal. apply manager_calls_io.
Qed.

(** A run of X17: the prompt is dismissed and the tags of [dev1] go. *)
Lemma tagEntry_stores_answer_witness :
  ∃ stored,
    manager_calls (added (tagEntry reporting_manager dev1 None) sample_world) =
      [AddCfg stored] ∧
    QConn.label stored = "dev1" ∧ QConn.uniqLabel stored = "dev,dev1" ∧
    QConn.tags stored = "".
Proof.
  apply (tagEntry_stores_answer reporting_manager dev1 None sample_world
           manager_on_dev1).
  reflexivity.
Defined.

(** 'q-client.connectEntry' offers the labels of the configured servers,
    in their order (nothing without a manager); a picked label is handled
    exactly as the command 'q-client.connect' handles it, and a dismissed
    pick, or an empty one, reaches no manager method. *)
Lemma connectEntry_connects_pick
    (impl : ManagerImpl) (option : option string) (w : World) :
  (∀ label, option = Some label → label ≠ "" →
     connectEntry impl option w =
       connect impl (JString label)
         (with_trace w (trace w ++ [connectEntry_offer w]))) ∧
  (option = None ∨ option = Some "" →
     connectEntry impl option w =
       (Normal (), with_trace w (trace w ++ [connectEntry_offer w]))).
Proof.
  unfold connectEntry_offer. split.
  - intros label -> Hne. destruct label as [|c rest]; [done|].
    unfold connectEntry, mbind, Eff_bind, get_world, log. simpl.
    by destruct (current (manager w)).
  - intros [-> | ->]; unfold connectEntry, mbind, Eff_bind, get_world, log; simpl;
      by destruct (current (manager w)).
Qed.

Lemma reactions_added (option : option string) (w : World) :
  added (reactions option) w =
    ShowQuickPick reactions_items "Contribute to vscode-q by" ::
    match option with
    | Some (String c _) =>
        if bool_decide (c = "1"%char) then
          [OpenExternal "https://github.com/jshinonome/vscode-q/issues"]
        else if bool_decide (c = "2"%char) then
          [OpenExternal "https://marketplace.visualstudio.com/items?itemName=jshinonome.vscode-q&ssr=false#review-details"]
        else if bool_decide (c = "3"%char) then
          [OpenExternal "https://github.com/jshinonome/vscode-q/blob/master/CONTRIBUTING.md"]
        else if bool_decide (c = "4"%char) then
          [OpenExternal "https://www.buymeacoffee.com/jshinonome"]
        else if bool_decide (c = "5"%char) then
          [OpenExternal "https://github.com/jshinonome/vscode-q/discussions"]
        else []
    | _ => []
    end.
Proof.
  apply added_app. unfold reactions, mbind, Eff_bind, log, skip. simpl.
  destruct option as [[|c rest]|]; try done.
  repeat case_bool_decide; simpl; by rewrite <- ?app_assoc.
Qed.

(** X18: 'q-client.reactions' opens one page for each of the five entries
    it offers, a different page for each entry; a dismissed pick opens
    nothing, and no pick opens more than one page. *)
Theorem reactions_opens_one_page_per_entry (w : World) :
  (∀ item, item ∈ reactions_items →
     ∃ uri, opened_pages (added (reactions (Some item)) w) = [uri]) ∧
  (∀ item1 item2, item1 ∈ reactions_items → item2 ∈ reactions_items →
     opened_pages (added (reactions (Some item1)) w) =
       opened_pages (added (reactions (Some item2)) w) →
     item1 = item2) ∧
  opened_pages (added (reactions None) w) = [] ∧
  (∀ option, length (opened_pages (added (reactions option) w)) ≤ 1)%nat.
Proof.
  split; [|split; [|split]].
  - intros item Hitem. rewrite reactions_added. unfold reactions_items in Hitem.
    repeat (apply elem_of_cons in Hitem as [->|Hitem]; [by eexists|]).
    by apply elem_of_nil in Hitem.
  - intros item1 item2 H1 H2. rewrite !reactions_added.
    unfold reactions_items in H1, H2.
    repeat (apply elem_of_cons in H1 as [->|H1]);
      try (by apply elem_of_nil in H1);
      repeat (apply elem_of_cons in H2 as [->|H2]);
      try (by apply elem_of_nil in H2); try done; intros Heq; discriminate Heq.
  - by rewrite reactions_added.
  - intros option. rewrite reactions_added.
    destruct option as [[|c rest]|]; simpl; try lia.
    repeat case_bool_decide; simpl; lia.
Qed.

(** ** The label in the delete prompt *)

Lemma replace_first_absent (from to : ascii) (s : string) :
  from ∉ string_chars s → replace_first from to s = s.
Proof.
  induction s as [|c s IH]; [done|]. simpl. intros [Hc Hs]%not_elem_of_cons.
  rewrite bool_decide_eq_false_2 by done. by rewrite IH.
Qed.

Lemma replace_first_split (from to : ascii) (pre post : string) :
  from ∉ string_chars pre →
  replace_first from to (pre +:+ String from post) = pre +:+ String to post.
Proof.
  induction pre as [|c pre IH]; intros Hpre.
  - rewrite !string_app_nil_l. simpl. by rewrite bool_decide_eq_true_2.
  - simpl in Hpre. apply not_elem_of_cons in Hpre as [Hc Hpre].
    rewrite !string_app_cons. simpl.
    rewrite bool_decide_eq_false_2 by done. by rewrite IH.
Qed.

(** X19: the prompt of 'q-client.deleteEntry' shows the label of the entry
    with its first comma turned into a dash -- what follows that comma is
    shown as it is, further commas included -- and a label without comma
    unchanged; the label handed to [removeCfg] on "Y" is the label itself,
    comma included. *)
Theorem deleteEntry_prompt_shows_label
    (impl : ManagerImpl) (qConn : QConn.t) (w : World) (m : QConnManager) :
  current (manager w) = Some m →
  (∀ pre post, QConn.uniqLabel qConn = pre +:+ String "," post →
     ("," : ascii) ∉ string_chars pre →
     ∃ io, added (deleteEntry impl qConn (Some "Y")) w =
       ShowInputBox ("Confirm to Remove Server '" +:+ (pre +:+ String "-" post)
                     +:+ "' (Y/n)")
       :: ManagerCall (RemoveCfg (pre +:+ String "," post)) :: (ManagerEffect <$> io)) ∧
  (("," : ascii) ∉ string_chars (QConn.uniqLabel qConn) →
     ∃ io, added (deleteEntry impl qConn (Some "Y")) w =
       ShowInputBox ("Confirm to Remove Server '" +:+ QConn.uniqLabel qConn
                     +:+ "' (Y/n)")
       :: ManagerCall (RemoveCfg (QConn.uniqLabel qConn)) :: (ManagerEffect <$> io)).
Proof.
  intros Hcur.
  assert (∃ io, added (deleteEntry impl qConn (Some "Y")) w =
            deleteEntry_prompt qConn
            :: ManagerCall (RemoveCfg (QConn.uniqLabel qConn)) :: (ManagerEffect <$> io))
    as [io Hadded].
  { eexists. apply added_app. rewrite deleteEntry_confirmed.
    erewrite call_current_some by exact Hcur.
    rewrite call_manager_trace. simpl. by rewrite <- app_assoc. }
  split.
  - intros pre post Hlabel Hpre. exists io. rewrite Hadded.
    unfold deleteEntry_prompt. by rewrite Hlabel, replace_first_split.
  - intros Hnone. exists io. rewrite Hadded.
    unfold deleteEntry_prompt. by rewrite replace_first_absent.
Qed.

(** A run of X19: a label with two commas. *)
Lemma deleteEntry_prompt_shows_label_witness :
  ∃ io,
    added (deleteEntry reporting_manager
             {| QConn.label := "hdb"; QConn.uniqLabel := "prod,hdb,eu";
                QConn.tags := "prod" |} (Some "Y")) sample_world =
      ShowInputBox "Confirm to Remove Server 'prod-hdb,eu' (Y/n)"
      :: ManagerCall (RemoveCfg "prod,hdb,eu") :: (ManagerEffect <$> io).
Proof.
  apply (proj1 (deleteEntry_prompt_shows_label reporting_manager
                  {| QConn.label := "hdb"; QConn.uniqLabel := "prod,hdb,eu";
                     QConn.tags := "prod" |} sample_world manager_on_dev1 eq_refl)
           "prod" "hdb,eu").
  - reflexivity.
  - apply (bool_decide_eq_false_1 _). reflexivity.
Defined.

(** ** Selections within one line *)

Lemma getText_one_line (document : TextDocument) (s e : Position) :
  line s = line e →
  getText document {| start := s; end_ := e |} =
    string_take (character e - character s)
      (string_drop (character s) (line_text document (line s))).
Proof.
  intros Hline. unfold getText. simpl.
  destruct (decide (s = e)) as [->|Hne].
  - rewrite Nat.sub_diag. by destruct (string_drop _ _).
  - by rewrite decide_True.
Qed.

(** X20: a selection within one line is sent to the terminal as it stands:
    the code units of that line from the first to the last selected column;
    when that piece is empty nothing is sent. *)
Theorem sendSelection_within_a_line (w : World) (editor : TextEditor) :
  activeTextEditor w = Some editor →
  (∀ t, t ∈ lines (document editor) → single_line t = true) →
  line (Selection_start (selection editor)) = line (Selection_end (selection editor)) →
  terminal_texts (added sendSelection w) =
    match string_take
            (character (Selection_end (selection editor))
             - character (Selection_start (selection editor)))
            (string_drop (character (Selection_start (selection editor)))
               (line_text (document editor)
                  (line (Selection_start (selection editor))))) with
    | EmptyString => []
    | piece => [piece]
    end.
Proof.
  intros Hed Hlines Hline.
  set (piece := string_take _ _).
  assert (selected_text w = Some piece) as Hsel.
  { unfold selected_text. rewrite Hed. simpl.
    by rewrite new_Range_selection, getText_one_line. }
  assert (single_line piece = true) as Hsingle.
  { apply single_line_take, single_line_drop. unfold line_text.
    destruct (lines (document editor) !! _) as [t|] eqn:Ht; simpl; [|done].
    by eapply Hlines, list_elem_of_lookup_2. }
  destruct piece as [|c rest] eqn:Hpiece.
  - rewrite (added_app _ _ []); [done|].
    by rewrite sendSelection_unfold, Hsel, app_nil_r.
  - rewrite (added_app _ _ [SendToCurrentTerm (replace_line_breaks (String c rest))])
      by (by rewrite sendSelection_unfold, Hsel).
    change (terminal_texts [SendToCurrentTerm (replace_line_breaks (String c rest))])
      with [replace_line_breaks (String c rest)].
    f_equal. rewrite replace_line_breaks_filter. by apply string_filter_fixed.
Qed.

(** A run of X20: columns 2 to 5 of "f:{[x]". *)
Lemma sendSelection_within_a_line_witness :
  terminal_texts
    (added sendSelection
       {| configuration := ∅; activeTextEditor := Some sample_editor_one_line;
          QueryConsole_current := true;
          manager := {| current := None; queryMode := Console |};
          trace := [] |}) = ["{[x"].
Proof.
  apply (sendSelection_within_a_line
           {| configuration := ∅; activeTextEditor := Some sample_editor_one_line;
              QueryConsole_current := true;
              manager := {| current := None; queryMode := Console |};
              trace := [] |} sample_editor_one_line).
  - reflexivity.
  - intros t Ht. simpl in Ht.
    repeat (apply elem_of_cons in Ht as [->|Ht]; [reflexivity|]).
    by apply elem_of_nil in Ht.
  - reflexivity.
Defined.

(** ** A failing change of mode *)

(** X21: when [setQueryMode] throws, 'q-client.switchMode' throws the same
    error and the status bar is not updated; the message "Switch to Query
    ... Mode" has been shown by then, since it precedes the call. *)
Theorem switchMode_failure
    (impl : ManagerImpl) (mode : string) (w : World) (e : JsValue) :
  mode ≠ "" →
  completion (impl (SetQueryMode (JString mode)) (manager w)) = Throw e →
  (switchMode impl (Some mode) w).1 = Throw e ∧
  (UpdateQueryModeStatus ∉ added (switchMode impl (Some mode)) w) ∧
  ∃ io, added (switchMode impl (Some mode)) w =
    ShowQuickPick ["Console"; "Grid"; "Virtualization"]
      "Please choose a query mode from the list below"
    :: ShowInformationMessage ("Switch to Query " +:+ mode +:+ " Mode")
    :: ManagerCall (SetQueryMode (JString mode)) :: (ManagerEffect <$> io).
Proof.
  intros Hne Hthrow.
  assert (truthy (Some mode) = true) as Htruthy by by destruct mode.
  assert (added (switchMode impl (Some mode)) w = switchMode_front impl mode w)
    as Hadded.
  { rewrite switchMode_added, Htruthy. unfold switchMode_effects. by rewrite Hthrow. }
  rewrite Hadded. split; [|split].
  - unfold switchMode. rewrite Htruthy.
    unfold mbind, Eff_bind, log, call_manager. simpl. by rewrite Hthrow.
  - apply switchMode_front_no_status.
  - by eexists.
Qed.

(** A run of X21: the manager refuses the mode. *)
Lemma switchMode_failure_witness :
  (switchMode failing_manager (Some "Grid") sample_world).1 =
    Throw (JString "not connected") ∧
  (UpdateQueryModeStatus ∉ added (switchMode failing_manager (Some "Grid")) sample_world) ∧
  ∃ io, added (switchMode failing_manager (Some "Grid")) sample_world =
    ShowQuickPick ["Console"; "Grid"; "Virtualization"]
      "Please choose a query mode from the list below"
    :: ShowInformationMessage "Switch to Query Grid Mode"
    :: ManagerCall (SetQueryMode (JString "Grid")) :: (ManagerEffect <$> io).
Proof.
  apply (switchMode_failure failing_manager "Grid" sample_world
           (JString "not connected")).
  - intros Heq. discriminate Heq.
  - reflexivity.
Defined.
